(** * sureOS early boot: Multiboot2 information walk and CPU exception defaults

    A shallow embedding of
    - [src/impl/kernel/multiboot2.c]  ([check_multiboot2]) and
    - [src/impl/x86_64/exception.c]   (the [*_prologue] handlers and
      [exception_defaults]),
    together with the properties of the boot specification that concern
    them.

    Machine integers are modelled as [Z] with the wrap-around of the C
    types written out ([unsigned int] is 32 bits wide, [unsigned long] and
    pointers are 64 bits wide on x86_64).  The boot information structure is
    raw memory, read byte by byte in little-endian order.  Loops carry a
    fuel argument; running out of fuel is a separate outcome, so that
    "terminates" reads "some fuel gives a result" and "never terminates"
    reads "every fuel runs out". *)

From Stdlib Require Import ZArith Lia.
From stdpp Require Import base numbers list strings gmap.

Local Open Scope Z_scope.

(** ** Machine arithmetic *)

Module Machine.

(** Conversion to [unsigned int]. *)
Definition u32 (z : Z) : Z := z mod 2 ^ 32.

(** Conversion to [unsigned long], also the arithmetic of pointers. *)
Definition u64 (z : Z) : Z := z mod 2 ^ 64.

(** Raw memory: the byte stored at every address. *)
Definition memory : Type := Z → Z.

Definition byte_at (m : memory) (a : Z) : Z := m (u64 a) mod 256.

(** Little-endian read of [n] bytes starting at [a]. *)
Fixpoint read_le (m : memory) (a : Z) (n : nat) : Z :=
  match n with
  | O => 0
  | S k => byte_at m a + 256 * read_le m (a + 1) k
  end.

(** Little-endian encoding of the low [n] bytes of [v]. *)
Fixpoint le_bytes (n : nat) (v : Z) : list Z :=
  match n with
  | O => []
  | S k => v mod 256 :: le_bytes k (v / 256)
  end.

(** The memory that holds [bytes] from address [base] on, and zero
    everywhere else. *)
Definition mem_of (base : Z) (bytes : list Z) : memory :=
  λ a, if decide (base ≤ a) then nth (Z.to_nat (a - base)) bytes 0 else 0.

(** [m] holds [bytes] from address [a] on. *)
Definition holds (m : memory) (a : Z) (bytes : list Z) : Prop :=
  ∀ i : nat, (i < length bytes)%nat → byte_at m (a + Z.of_nat i) = nth i bytes 0.

End Machine.
Export Machine.

(** ** Observable behaviour *)

(** What a run does, in program order: clearing the screen, reading memory,
    and handing a format string with its arguments to the diagnostic sink.
    A [%s] argument is the address of the text: the sink reads it. *)
Inductive event : Type :=
  | CGA_clear_ev
  | Fetch (addr : Z) (width : nat)
  | Printf (fmt : string) (args : list Z)
  | Panicf (fmt : string) (args : list Z)
  | Panic (msg : string).

Inductive outcome (A : Type) : Type :=
  | Done (a : A)
  | Halted
  | OutOfFuel.
Arguments Done {A} a.
Arguments Halted {A}.
Arguments OutOfFuel {A}.

(** A computation: the events it emitted and how it ended. *)
Definition M (A : Type) : Type := list event * outcome A.

Definition ret {A} (a : A) : M A := ([], Done a).

Definition bind {A B} (c : M A) (k : A → M B) : M B :=
  match c with
  | (t, Done a) => let '(t', r) := k a in (t ++ t', r)
  | (t, Halted) => (t, Halted)
  | (t, OutOfFuel) => (t, OutOfFuel)
  end.

Declare Scope run_scope.
Delimit Scope run_scope with run.
Notation "x <- c ;; k" := (bind c (λ x, k))
  (at level 100, c at next level, right associativity) : run_scope.
Notation "c ;; k" := (bind c (λ _, k))
  (at level 100, right associativity) : run_scope.
Local Open Scope run_scope.

Definition emit (e : event) : M unit := ([e], Done tt).
Definition out_of_fuel {A} : M A := ([], OutOfFuel).

Definition trace {A} (c : M A) : list event := c.1.
Definition result {A} (c : M A) : outcome A := c.2.

Definition is_fetch (e : event) : bool :=
  match e with Fetch _ _ => true | _ => false end.

Definition is_printf (e : event) : bool :=
  match e with Printf _ _ => true | _ => false end.

(** The lines handed to [printf], in order. *)
Definition printed (t : list event) : list event := List.filter is_printf t.

(** ** Collaborators of the sources *)

(** Modelled from the spec: [cgascr.h] is not among the sources;
    [CGA_clear] only touches the screen. *)
Definition CGA_clear : M unit := emit CGA_clear_ev.

(** Modelled from the spec: [stdlib/stdio.h] is not among the sources;
    [printf] renders text on the diagnostic sink and returns. *)
Definition printf (fmt : string) (args : list Z) : M unit := emit (Printf fmt args).

(** Modelled from the spec: [panic.h] is not among the sources; a violated
    precondition of the parser is "fatal and non-recoverable (report and
    halt)", so [panicf] reports and does not return. *)
Definition panicf (fmt : string) (args : list Z) : M unit := ([Panicf fmt args], Halted).

(** Modelled from the spec: [panic.h] is not among the sources; a default
    exception handler "emits the name via the Diagnostic Sink, then reports
    non-resumable", so [panic] emits its message and the handler goes on to
    its [return]. *)
Definition panic (msg : string) : M unit := emit (Panic msg).

(** ** The Multiboot2 information walk ([src/impl/kernel/multiboot2.c]) *)

Module Multiboot2.

(** *** Declarations of [boot/multiboot2.h] *)

(** Modelled from the spec: [boot/multiboot2.h] is not among the sources.
    The constants are those of the Multiboot2 protocol; the layouts are
    the spec's: a tag header is [{type: u32, size: u32}], a memory map tag
    adds [{entry_size: u32, entry_version: u32}] before its entries, and
    an entry is [{addr: u64, len: u64, type: u32, reserved: u32}]. *)
Definition MULTIBOOT2_BOOTLOADER_MAGIC : Z := 0x36d76289.

Definition MULTIBOOT_TAG_TYPE_END : Z := 0.
Definition MULTIBOOT_TAG_TYPE_CMDLINE : Z := 1.
Definition MULTIBOOT_TAG_TYPE_BOOT_LOADER_NAME : Z := 2.
Definition MULTIBOOT_TAG_TYPE_MODULE : Z := 3.
Definition MULTIBOOT_TAG_TYPE_BASIC_MEMINFO : Z := 4.
Definition MULTIBOOT_TAG_TYPE_BOOTDEV : Z := 5.
Definition MULTIBOOT_TAG_TYPE_MMAP : Z := 6.

(** Field offsets of [struct multiboot_tag] and of the structures that
    start with it. *)
Definition off_type : Z := 0.
Definition off_size : Z := 4.
Definition off_string : Z := 8.
Definition off_mod_start : Z := 8.
Definition off_mod_end : Z := 12.
Definition off_mod_cmdline : Z := 16.
Definition off_mem_lower : Z := 8.
Definition off_mem_upper : Z := 12.
Definition off_biosdev : Z := 8.
Definition off_slice : Z := 12.
Definition off_part : Z := 16.
Definition off_entry_size : Z := 8.
Definition off_entry_version : Z := 12.
Definition off_entries : Z := 16.

(** Field offsets of [multiboot_memory_map_t]. *)
Definition off_addr : Z := 0.
Definition off_len : Z := 8.
Definition off_mmap_type : Z := 16.

Section Walk.

Variable mem : memory.

(** Reads of a [multiboot_uint32_t] and of a [multiboot_uint64_t]. *)
Definition load32 (a : Z) : M Z :=
  ([Fetch (u64 a) 4], Done (read_le mem a 4)).
Definition load64 (a : Z) : M Z :=
  ([Fetch (u64 a) 8], Done (read_le mem a 8)).

(** [(tag->size + 7) & ~7], computed in [unsigned int]. *)
Definition padded (size : Z) : Z :=
  Z.land (u32 (size + 7)) (u32 (Z.lnot 7)).

(** The body of the inner [for] of the [MULTIBOOT_TAG_TYPE_MMAP] case:
    one [printf] per entry. *)
Definition mmap_print (mmap : Z) : M unit :=
  a_hi <- load64 (mmap + off_addr) ;;
  a_lo <- load64 (mmap + off_addr) ;;
  l_hi <- load64 (mmap + off_len) ;;
  l_lo <- load64 (mmap + off_len) ;;
  ty <- load32 (mmap + off_mmap_type) ;;
  printf " base_addr = 0x%x%x, length = 0x%x%x, type = 0x%x\n"
    [u32 (Z.shiftr a_hi 32); u32 (Z.land a_lo 0xffffffff);
     u32 (Z.shiftr l_hi 32); u32 (Z.land l_lo 0xffffffff);
     u32 ty].

(** The inner [for]: [mmap] runs from [tag->entries] in steps of
    [tag->entry_size] while it is below [tag + tag->size]. *)
Fixpoint mmap_loop (fuel : nat) (tag mmap : Z) : M unit :=
  match fuel with
  | O => out_of_fuel
  | S fuel' =>
      size <- load32 (tag + off_size) ;;
      if decide (mmap < u64 (tag + size)) then
        mmap_print mmap ;;
        entry_size <- load32 (tag + off_entry_size) ;;
        mmap_loop fuel' tag (u64 (mmap + entry_size))
      else ret tt
  end.

(** The [switch (tag->type)]; it has no [default]. *)
Definition tag_switch (fuel : nat) (tag type : Z) : M unit :=
  if decide (type = MULTIBOOT_TAG_TYPE_CMDLINE) then
    printf "Command line = %s\n" [u64 (tag + off_string)]
  else if decide (type = MULTIBOOT_TAG_TYPE_BOOT_LOADER_NAME) then
    printf "Boot loader name = %s\n" [u64 (tag + off_string)]
  else if decide (type = MULTIBOOT_TAG_TYPE_MODULE) then
    mod_start <- load32 (tag + off_mod_start) ;;
    mod_end <- load32 (tag + off_mod_end) ;;
    printf "Module at 0x%x-0x%x. Command line %s\n"
      [mod_start; mod_end; u64 (tag + off_mod_cmdline)]
  else if decide (type = MULTIBOOT_TAG_TYPE_BASIC_MEMINFO) then
    mem_lower <- load32 (tag + off_mem_lower) ;;
    mem_upper <- load32 (tag + off_mem_upper) ;;
    printf "mem_lower = %uKB, mem_upper = %uKB\n" [mem_lower; mem_upper]
  else if decide (type = MULTIBOOT_TAG_TYPE_BOOTDEV) then
    biosdev <- load32 (tag + off_biosdev) ;;
    slice <- load32 (tag + off_slice) ;;
    part <- load32 (tag + off_part) ;;
    printf "Boot device 0x%x,%u,%u\n" [biosdev; slice; part]
  else if decide (type = MULTIBOOT_TAG_TYPE_MMAP) then
    printf "mmap\n" [] ;;
    mmap_loop fuel tag (u64 (tag + off_entries))
  else ret tt.

(** The body of the outer [for], for the tag at [tag]. *)
Definition tag_body (fuel : nat) (tag : Z) : M unit :=
  type <- load32 (tag + off_type) ;;
  size <- load32 (tag + off_size) ;;
  printf "Tag 0x%x, Size 0x%x\n" [type; size] ;;
  type <- load32 (tag + off_type) ;;
  tag_switch fuel tag type.

(** The increment of the outer [for]: the next tag's address. *)
Definition tag_next (tag size : Z) : Z := u64 (tag + padded size).

(** The outer [for]: from [tag], visit tags until one of type
    [MULTIBOOT_TAG_TYPE_END]; the result is the address of that tag. *)
Fixpoint tag_loop (fuel : nat) (tag : Z) : M Z :=
  match fuel with
  | O => out_of_fuel
  | S fuel' =>
      type <- load32 (tag + off_type) ;;
      if decide (type ≠ MULTIBOOT_TAG_TYPE_END) then
        tag_body fuel' tag ;;
        size <- load32 (tag + off_size) ;;
        tag_loop fuel' (tag_next tag size)
      else ret tag
  end.

Definition check_multiboot2 (fuel : nat) (magic addr : Z) : M unit :=
  CGA_clear ;;
  (if decide (magic ≠ MULTIBOOT2_BOOTLOADER_MAGIC)
   then panicf "Invalid magic number: 0x%x\n" [u32 magic] else ret tt) ;;
  (if decide (Z.land addr 7 ≠ 0)
   then panicf "Unaligned mbi: 0x%x\n" [addr] else ret tt) ;;
  size <- load32 addr ;;
  printf "Announced mbi size 0x%x\n" [size] ;;
  tag <- tag_loop fuel (u64 (addr + 8)) ;;
  size <- load32 (tag + off_size) ;;
  let tag := tag_next tag size in
  printf "Total mbi size 0x%x\n" [u64 (u32 tag - addr)].

End Walk.

(** *** Vocabulary of the properties *)

Definition tag_type (mem : memory) (tag : Z) : Z := read_le mem (tag + off_type) 4.
Definition tag_size (mem : memory) (tag : Z) : Z := read_le mem (tag + off_size) 4.
Definition tag_entry_size (mem : memory) (tag : Z) : Z :=
  read_le mem (tag + off_entry_size) 4.

(** The announced size: the [unsigned int] stored at [addr]. *)
Definition total_size (mem : memory) (addr : Z) : Z := read_le mem addr 4.

(** The address of the [k]-th tag the outer loop visits from [tag] on. *)
Fixpoint tag_at (mem : memory) (k : nat) (tag : Z) : Z :=
  match k with
  | O => tag
  | S k' => tag_at mem k' (tag_next tag (tag_size mem tag))
  end.

(** The bytes the walk has consumed once it has stepped over the first
    [k] tags: the 8 bytes of the header and every padded extent. *)
Fixpoint consumed (mem : memory) (k : nat) (tag : Z) : Z :=
  match k with
  | O => 8
  | S k' => padded (tag_size mem tag)
            + consumed mem k' (tag_next tag (tag_size mem tag))
  end.

(** The spec's [round_up(size, 8)]: the next multiple of [align]. *)
Definition round_up (size align : Z) : Z := align * ((size + align - 1) / align).

(** Quotient rounded up. *)
Definition ceil_div (a b : Z) : Z := (a + b - 1) / b.

(** A memory map entry as the bootloader lays it out. *)
Record mmap_entry : Type := MmapEntry {
  addr : Z;
  len : Z;
  region_type : Z;
  reserved : Z
}.

Definition encode_entry (e : mmap_entry) : list Z :=
  le_bytes 8 (addr e) ++ le_bytes 8 (len e)
  ++ le_bytes 4 (region_type e) ++ le_bytes 4 (reserved e).

Definition entry_wf (e : mmap_entry) : Prop :=
  0 ≤ addr e < 2 ^ 64 ∧ 0 ≤ len e < 2 ^ 64 ∧ 0 ≤ region_type e < 2 ^ 32.

(** The line [mmap_print] hands to [printf] for the entry at [mmap]. *)
Definition mmap_line (mem : memory) (mmap : Z) : event :=
  Printf " base_addr = 0x%x%x, length = 0x%x%x, type = 0x%x\n"
    [u32 (Z.shiftr (read_le mem (mmap + off_addr) 8) 32);
     u32 (Z.land (read_le mem (mmap + off_addr) 8) 0xffffffff);
     u32 (Z.shiftr (read_le mem (mmap + off_len) 8) 32);
     u32 (Z.land (read_le mem (mmap + off_len) 8) 0xffffffff);
     u32 (read_le mem (mmap + off_mmap_type) 4)].

(** The lines of [k] entries laid out from [mmap] on at stride [stride]. *)
Fixpoint mmap_lines (mem : memory) (stride : Z) (k : nat) (mmap : Z) : list event :=
  match k with
  | O => []
  | S k' => mmap_line mem mmap :: mmap_lines mem stride k' (mmap + stride)
  end.

(** What a printed entry line says: address, length and type, the two
    halves of the 64-bit fields put together again. *)
Definition line_fields (e : event) : option (Z * Z * Z) :=
  match e with
  | Printf _ [a_hi; a_lo; l_hi; l_lo; ty] =>
      Some (a_hi * 2 ^ 32 + a_lo, l_hi * 2 ^ 32 + l_lo, ty)
  | _ => None
  end.

Definition entry_fields (e : mmap_entry) : Z * Z * Z :=
  (addr e, len e, region_type e).

End Multiboot2.

(** ** CPU exception defaults ([src/impl/x86_64/exception.c]) *)

Module Exception.

(** *** Declarations of [exception.h] and [plugbox.h] *)

(** Modelled from the spec: [exception.h] is not among the sources.  The
    vector numbers are those the source documents above each handler
    ("0 - Division Error", ..., "30 - Security Exception"). *)
Definition int_de : Z := 0.
Definition int_db : Z := 1.
Definition int_nmi : Z := 2.
Definition int_bp : Z := 3.
Definition int_of : Z := 4.
Definition int_br : Z := 5.
Definition int_ud : Z := 6.
Definition int_nm : Z := 7.
Definition int_df : Z := 8.
Definition int_ts : Z := 10.
Definition int_np : Z := 11.
Definition int_ss : Z := 12.
Definition int_gp : Z := 13.
Definition int_pf : Z := 14.
Definition int_mf : Z := 16.
Definition int_ac : Z := 17.
Definition int_mc : Z := 18.
Definition int_xm : Z := 19.
Definition int_ve : Z := 20.
Definition int_cp : Z := 21.
Definition int_hv : Z := 28.
Definition int_vc : Z := 29.
Definition int_sx : Z := 30.

(** Modelled from the spec: [plugbox.h] is not among the sources.  A
    registry entry is a handler "given frame and optional error code,
    return resumable: bool"; the handlers of this file take no argument.
    [new_interrupt_handler] pairs a prologue with an optional epilogue. *)
Record interrupt_handler : Type := new_interrupt_handler {
  prologue : M bool;
  epilogue : option (M unit)
}.

(** Modelled from the spec: the storage of the vector table is not among
    the sources; it "exposes assign(vector, handler), overwrite
    semantics".  The code is written against that interface. *)
Class Plugbox (St : Type) : Type :=
  plugbox_assign : Z → interrupt_handler → St → St.

(** The table itself: one binding per vector, the last assignment wins. *)
#[export] Instance plugbox_table : Plugbox (gmap Z interrupt_handler) :=
  λ v h pb, <[v := h]> pb.

(** The history of calls, oldest first. *)
#[export] Instance plugbox_calls : Plugbox (list (Z * interrupt_handler)) :=
  λ v h calls, calls ++ [(v, h)].

(** Invoking the handler registered for vector [v]. *)
Definition invoke (pb : gmap Z interrupt_handler) (v : Z) : option (M bool) :=
  prologue <$> pb !! v.

(** *** The exception descriptors *)

Inductive exception_class : Type := Fault | Trap | Abort | Interrupt | FaultOrTrap.

Record descriptor : Type := Descriptor {
  vector : Z;
  name : string;
  class : exception_class;
  has_error_code : bool
}.

(** The source keeps the classification of the vectors in the comment
    above each handler: "<vector> - <name>: <class>, <error code>". *)
Definition descriptors : list descriptor :=
  [ Descriptor 0 "Division Error" Fault false;
    Descriptor 1 "Debug" FaultOrTrap false;
    Descriptor 2 "Non-maskable Interrupt" Interrupt false;
    Descriptor 3 "Breakpoint" Trap false;
    Descriptor 4 "Overflow" Trap false;
    Descriptor 5 "Bound Range Exceeded" Fault false;
    Descriptor 6 "Invalid Opcode" Fault false;
    Descriptor 7 "Device Not Available" Fault false;
    Descriptor 8 "Double Fault" Abort true;
    Descriptor 10 "Invalid TSS" Fault true;
    Descriptor 11 "Segment Not Present" Fault true;
    Descriptor 12 "Stack-Segment Fault" Fault true;
    Descriptor 13 "General Protection Fault" Fault true;
    Descriptor 14 "Page Fault" Fault true;
    Descriptor 16 "x87 Floating-Point Exception" Fault false;
    Descriptor 17 "Alignment Check" Fault true;
    Descriptor 18 "Machine Check" Abort false;
    Descriptor 19 "SIMD Floating-Point Exception" Fault false;
    Descriptor 20 "Virtualization Exception" Fault false;
    Descriptor 21 "Control Protection Exception" Fault true;
    Descriptor 28 "Hypervisor Injection Exception" Fault false;
    Descriptor 29 "VMM Communication Exception" Fault true;
    Descriptor 30 "Security Exception" Fault true ].

Definition defined_vectors : list Z := vector <$> descriptors.

Definition reserved_vectors : list Z := [9; 15].

Definition descriptor_name (v : Z) : option string :=
  name <$> List.find (λ d, bool_decide (vector d = v)) descriptors.

(** *** The handlers *)

Definition de_prologue : M bool := panic "Division Error" ;; ret false.
Definition db_prologue : M bool := panic "Debug" ;; ret false.
Definition nmi_prologue : M bool := panic "Non-maskable Interrupt" ;; ret false.
Definition bp_prologue : M bool := panic "Breakpoint" ;; ret false.
Definition of_prologue : M bool := panic "Overflow" ;; ret false.
Definition br_prologue : M bool := panic "Bound Range extended" ;; ret false.
Definition ud_prologue : M bool := panic "Invalid Opcode" ;; ret false.
Definition nm_prologue : M bool := panic "Device Not Available" ;; ret false.
Definition df_prologue : M bool := panic "Double Fault" ;; ret false.
Definition ts_prologue : M bool := panic "Invalid TSS" ;; ret false.
Definition np_prologue : M bool := panic "Segment Not Present" ;; ret false.
Definition ss_prologue : M bool := panic "Stack-Segment Fault" ;; ret false.
Definition gp_prologue : M bool := panic "General Protection Fault" ;; ret false.
Definition pf_prologue : M bool := panic "Page Fault" ;; ret false.
Definition mf_prologue : M bool := panic "x87 Floating-Point Exception" ;; ret false.
Definition ac_prologue : M bool := panic "Alignment Check" ;; ret false.
Definition mc_prologue : M bool := panic "Machine Check" ;; ret false.
Definition xm_prologue : M bool := panic "SIMD Floating-Point Exception" ;; ret false.
Definition ve_prologue : M bool := panic "Virtualization Exception" ;; ret false.
Definition cp_prologue : M bool := panic "Control Protection Exception" ;; ret false.
Definition hv_prologue : M bool := panic "Hypervisor Injection Exception" ;; ret false.
Definition vc_prologue : M bool := panic "VMM Communication Exception" ;; ret false.
Definition sx_prologue : M bool := panic "Security Exception" ;; ret false.

Section Defaults.

Context {St : Type} `{Plugbox St}.

Definition exception_defaults (pb : St) : St :=
  let pb := plugbox_assign int_de (new_interrupt_handler de_prologue None) pb in
  let pb := plugbox_assign int_db (new_interrupt_handler db_prologue None) pb in
  let pb := plugbox_assign int_nmi (new_interrupt_handler nmi_prologue None) pb in
  let pb := plugbox_assign int_bp (new_interrupt_handler bp_prologue None) pb in
  let pb := plugbox_assign int_of (new_interrupt_handler of_prologue None) pb in
  let pb := plugbox_assign int_br (new_interrupt_handler br_prologue None) pb in
  let pb := plugbox_assign int_ud (new_interrupt_handler ud_prologue None) pb in
  let pb := plugbox_assign int_nm (new_interrupt_handler nm_prologue None) pb in
  let pb := plugbox_assign int_df (new_interrupt_handler df_prologue None) pb in
  let pb := plugbox_assign int_ts (new_interrupt_handler ts_prologue None) pb in
  let pb := plugbox_assign int_np (new_interrupt_handler np_prologue None) pb in
  let pb := plugbox_assign int_ss (new_interrupt_handler ss_prologue None) pb in
  let pb := plugbox_assign int_gp (new_interrupt_handler gp_prologue None) pb in
  let pb := plugbox_assign int_pf (new_interrupt_handler pf_prologue None) pb in
  let pb := plugbox_assign int_mf (new_interrupt_handler mf_prologue None) pb in
  let pb := plugbox_assign int_ac (new_interrupt_handler ac_prologue None) pb in
  let pb := plugbox_assign int_mc (new_interrupt_handler mc_prologue None) pb in
  let pb := plugbox_assign int_xm (new_interrupt_handler xm_prologue None) pb in
  let pb := plugbox_assign int_ve (new_interrupt_handler ve_prologue None) pb in
  let pb := plugbox_assign int_cp (new_interrupt_handler cp_prologue None) pb in
  let pb := plugbox_assign int_hv (new_interrupt_handler hv_prologue None) pb in
  let pb := plugbox_assign int_vc (new_interrupt_handler vc_prologue None) pb in
  let pb := plugbox_assign int_sx (new_interrupt_handler sx_prologue None) pb in
  pb.

End Defaults.

(** The table [exception_defaults] builds from an empty one. *)
Definition default_table : gmap Z interrupt_handler := exception_defaults ∅.

(** The calls [exception_defaults] makes. *)
Definition default_calls : list (Z * interrupt_handler) := exception_defaults [].

(** The vectors of a history of calls, in call order. *)
Definition assigned (calls : list (Z * interrupt_handler)) : list Z := fst <$> calls.

(** How often vector [v] occurs in a list of assignments. *)
Definition times (v : Z) (vs : list Z) : nat :=
  length (List.filter (λ w, bool_decide (w = v)) vs).

(** The message a handler run emitted, when it emitted exactly one. *)
Definition emitted (c : M bool) : option string :=
  match trace c with
  | [Panic msg] => Some msg
  | _ => None
  end.

End Exception.

(** ** Boot information structures used as test data *)

Module Samples.
Import Multiboot2.

Definition base : Z := 0x10000.

Definition zeros (n : nat) : list Z := replicate n 0.

(** A tag header. *)
Definition header (type size : Z) : list Z := le_bytes 4 type ++ le_bytes 4 size.

Definition end_tag : list Z := header MULTIBOOT_TAG_TYPE_END 8.

(** The command line "x": 10 bytes, padded to 16. *)
Definition cmdline_x : list Z :=
  header MULTIBOOT_TAG_TYPE_CMDLINE 10 ++ [120; 0] ++ zeros 6.

Definition entry1 : mmap_entry := MmapEntry 0 0x9fc00 1 0.
Definition entry2 : mmap_entry := MmapEntry 0x100000000 0x7ee0000 2 0.

(** A memory map of two entries of 24 bytes. *)
Definition mmap_two : list Z :=
  header MULTIBOOT_TAG_TYPE_MMAP 64 ++ le_bytes 4 24 ++ le_bytes 4 0
  ++ encode_entry entry1 ++ encode_entry entry2.

(** A well-formed structure: 8 + 16 + 64 + 8 bytes. *)
Definition good_mbi : memory :=
  mem_of base (le_bytes 4 96 ++ zeros 4 ++ cmdline_x ++ mmap_two ++ end_tag).

(** The same tags behind a header that announces only 8 bytes. *)
Definition overrun_mbi : memory :=
  mem_of base (le_bytes 4 8 ++ zeros 4 ++ cmdline_x ++ end_tag).

(** A memory map whose [entry_size] is 0, with room for one entry. *)
Definition zero_stride_mbi : memory :=
  mem_of base (le_bytes 4 56 ++ zeros 4
               ++ header MULTIBOOT_TAG_TYPE_MMAP 40 ++ le_bytes 4 0 ++ le_bytes 4 0
               ++ encode_entry entry1 ++ end_tag).

(** A memory map of 40 payload bytes read at a stride of 24. *)
Definition ragged_mbi : memory :=
  mem_of base (le_bytes 4 72 ++ zeros 4
               ++ header MULTIBOOT_TAG_TYPE_MMAP 56 ++ le_bytes 4 24 ++ le_bytes 4 0
               ++ encode_entry entry1 ++ zeros 16 ++ end_tag).

(** A tag of unknown type 99 whose size field is the largest [u32]. *)
Definition wrap_size_mbi : memory :=
  mem_of base (le_bytes 4 24 ++ zeros 4 ++ header 99 0xffffffff ++ end_tag).

(** A tag of unknown type 99 whose size field is 0. *)
Definition zero_size_mbi : memory :=
  mem_of base (le_bytes 4 24 ++ zeros 4 ++ header 99 0 ++ end_tag).

End Samples.

(** ** Further vocabulary: the walk as a whole *)

Module Walks.
Import Multiboot2 Samples.

(** The line the outer loop prints first for the tag at [tag]. *)
Definition header_line (mem : memory) (tag : Z) : event :=
  Printf "Tag 0x%x, Size 0x%x\n" [tag_type mem tag; tag_size mem tag].

Definition is_header (e : event) : bool :=
  match e with
  | Printf fmt _ => bool_decide (fmt = "Tag 0x%x, Size 0x%x\n")
  | _ => false
  end.

(** The header lines of the first [k] tags from [tag] on. *)
Fixpoint header_lines (mem : memory) (k : nat) (tag : Z) : list event :=
  match k with
  | O => []
  | S k' => header_line mem tag
            :: header_lines mem k' (tag_next tag (tag_size mem tag))
  end.

(** The addresses a run has read, in order. *)
Definition fetched (t : list event) : list Z :=
  omap (λ e, match e with Fetch a _ => Some a | _ => None end) t.

(** The byte ranges a run has read: first address and the address behind
    the last byte. *)
Definition spans (t : list event) : list (Z * Z) :=
  omap (λ e, match e with Fetch a w => Some (a, a + Z.of_nat w) | _ => None end) t.

(** The number of rounds of the entry loop of the tag at [tag]. *)
Definition mmap_count (mem : memory) (tag : Z) : nat :=
  Z.to_nat (ceil_div (tag_size mem tag - off_entries) (tag_entry_size mem tag)).

(** A tag whose body ends within [bound] rounds: any tag that is not a
    memory map, and a memory map with a positive stride that lies below the
    top of the address space and has at most [bound] entries. *)
Definition tag_ends_within (mem : memory) (bound : nat) (tag : Z) : Prop :=
  tag_type mem tag = MULTIBOOT_TAG_TYPE_MMAP →
  0 < tag_entry_size mem tag
  ∧ tag + off_entries + tag_size mem tag + tag_entry_size mem tag < 2 ^ 64
  ∧ (mmap_count mem tag ≤ bound)%nat.

(** [entries] laid out from [mmap] on, one every [stride] bytes. *)
Definition entries_at (mem : memory) (stride mmap : Z) (entries : list mmap_entry) : Prop :=
  ∀ (i : nat) e, entries !! i = Some e →
    holds mem (mmap + Z.of_nat i * stride) (encode_entry e).

(** The argument of the last line, "Total mbi size", for a walk that
    ended at the tag [e]: [(unsigned) tag - addr]. *)
Definition total_reported (mem : memory) (addr e : Z) : Z :=
  u64 (u32 (tag_next e (tag_size mem e)) - addr).

(** A memory map of two entries laid out at a stride of 32 bytes, 8 bytes
    of padding after each. *)
Definition wide_mbi : memory :=
  mem_of base (le_bytes 4 104 ++ zeros 4
               ++ header MULTIBOOT_TAG_TYPE_MMAP 80 ++ le_bytes 4 32 ++ le_bytes 4 0
               ++ encode_entry entry1 ++ zeros 8
               ++ encode_entry entry2 ++ zeros 8
               ++ end_tag).


(** A memory map tag without payload, whose stride is 0. *)
Definition empty_mmap_mbi : memory :=
  mem_of base (le_bytes 4 32 ++ zeros 4
               ++ header MULTIBOOT_TAG_TYPE_MMAP 16 ++ le_bytes 4 0 ++ le_bytes 4 0
               ++ end_tag).

End Walks.

(** ** Further vocabulary: the registry *)

Module Registry.
Import Exception.

(** The vector whose default handler emits [msg]. *)
Definition vector_of_message (msg : string) : option Z :=
  fst <$> List.find
            (λ call : Z * interrupt_handler,
               bool_decide (emitted (prologue call.2) = Some msg))
            default_calls.

(** The vectors below 32 that have no default handler. *)
Definition unassigned_exceptions : list Z :=
  List.filter (λ v, bool_decide (v ∉ defined_vectors)) (seqZ 0 32).

End Registry.

(** * Properties *)

(** ** Machine arithmetic *)

Module MachineFacts.

Lemma u64_small z : 0 ≤ z < 2 ^ 64 → u64 z = z.
Proof. intros Hz. unfold u64. by apply Z.mod_small. Qed.

Lemma u32_small z : 0 ≤ z < 2 ^ 32 → u32 z = z.
Proof. intros Hz. unfold u32. by apply Z.mod_small. Qed.

Lemma u64_range z : 0 ≤ u64 z < 2 ^ 64.
Proof. unfold u64. apply Z.mod_pos_bound. lia. Qed.

Lemma u64_idemp z : u64 (u64 z) = u64 z.
Proof. apply u64_small, u64_range. Qed.

Lemma byte_at_range m a : 0 ≤ byte_at m a < 256.
Proof. unfold byte_at. apply Z.mod_pos_bound. lia. Qed.

Lemma read_le_range m n : ∀ a, 0 ≤ read_le m a n < 256 ^ Z.of_nat n.
Proof.
  induction n as [|n IH]; intros a.
  - simpl. lia.
  - rewrite Nat2Z.inj_succ, Z.pow_succ_r by lia.
    change (read_le m a (S n)) with (byte_at m a + 256 * read_le m (a + 1) n).
    pose proof (byte_at_range m a). specialize (IH (a + 1)). lia.
Qed.

Lemma read_le_32_range m a : 0 ≤ read_le m a 4 < 2 ^ 32.
Proof. apply (read_le_range m 4 a). Qed.

Lemma read_le_64_range m a : 0 ≤ read_le m a 8 < 2 ^ 64.
Proof. apply (read_le_range m 8 a). Qed.

Lemma length_le_bytes n : ∀ v, length (le_bytes n v) = n.
Proof. induction n as [|n IH]; intros v; simpl; [done | by rewrite IH]. Qed.

(** Reading back what [le_bytes] laid out gives the value, cut to the
    width. *)
Lemma read_le_bytes m n : ∀ a v,
  holds m a (le_bytes n v) → read_le m a n = v mod 256 ^ Z.of_nat n.
Proof.
  induction n as [|n IH]; intros a v Hm.
  - simpl. by rewrite Z.mod_1_r.
  - change (read_le m a (S n)) with (byte_at m a + 256 * read_le m (a + 1) n).
    assert (Hhd : byte_at m a = v mod 256).
    { specialize (Hm 0%nat). simpl in Hm. rewrite Z.add_0_r in Hm.
      apply Hm. lia. }
    assert (Htl : holds m (a + 1) (le_bytes n (v / 256))).
    { intros i Hi. specialize (Hm (S i)). simpl in Hm.
      replace (a + 1 + Z.of_nat i) with (a + Z.pos (Pos.of_succ_nat i)) by lia.
      apply Hm. lia. }
    rewrite Hhd, (IH _ _ Htl).
    rewrite Nat2Z.inj_succ, Z.pow_succ_r by lia.
    rewrite Z.rem_mul_r by lia. lia.
Qed.

Lemma holds_app_l m a l1 l2 : holds m a (l1 ++ l2) → holds m a l1.
Proof.
  intros Hm i Hi. rewrite (Hm i).
  - by rewrite app_nth1.
  - rewrite length_app. lia.
Qed.

Lemma holds_app_r m a l1 l2 :
  holds m a (l1 ++ l2) → holds m (a + Z.of_nat (length l1)) l2.
Proof.
  intros Hm i Hi.
  replace (a + Z.of_nat (length l1) + Z.of_nat i)
    with (a + Z.of_nat (length l1 + i)) by lia.
  rewrite (Hm (length l1 + i)%nat).
  - rewrite app_nth2 by lia. f_equal. lia.
  - rewrite length_app. lia.
Qed.

(** The two halves that [mmap_print] prints make up the 64-bit value. *)
Lemma halves_64 v :
  0 ≤ v < 2 ^ 64 →
  u32 (Z.shiftr v 32) * 2 ^ 32 + u32 (Z.land v 0xffffffff) = v.
Proof.
  intros Hv. rewrite Z.shiftr_div_pow2 by lia.
  change 0xffffffff with (Z.ones 32). rewrite Z.land_ones by lia.
  unfold u32. rewrite Z.mod_mod by lia.
  rewrite (Z.mod_small (v / 2 ^ 32)).
  - pose proof (Z.div_mod v (2 ^ 32)). lia.
  - split; [apply Z.div_pos; lia|].
    apply Z.div_lt_upper_bound; lia.
Qed.

End MachineFacts.

(** ** Runs *)

Module RunFacts.

Lemma bind_done {A B} t (a : A) (k : A → M B) :
  bind (t, Done a) k = (t ++ trace (k a), result (k a)).
Proof. unfold bind, trace, result. by destruct (k a). Qed.

Lemma result_bind_done {A B} (c : M A) (k : A → M B) a :
  result c = Done a → result (bind c k) = result (k a).
Proof. destruct c as [t r]. intros Hr. simpl in Hr. subst r. by rewrite bind_done. Qed.

Lemma trace_bind_done {A B} (c : M A) (k : A → M B) a :
  result c = Done a → trace (bind c k) = trace c ++ trace (k a).
Proof. destruct c as [t r]. intros Hr. simpl in Hr. subst r. by rewrite bind_done. Qed.

Lemma result_bind_out_of_fuel {A B} (c : M A) (k : A → M B) :
  result c = OutOfFuel → result (bind c k) = OutOfFuel.
Proof. destruct c as [t r]. intros Hr. simpl in Hr. by subst r. Qed.

Lemma result_bind_halted {A B} (c : M A) (k : A → M B) :
  result c = Halted → result (bind c k) = Halted.
Proof. destruct c as [t r]. intros Hr. simpl in Hr. by subst r. Qed.

(** A run that cannot halt, followed by one that cannot halt. *)
Lemma bind_no_halt {A B} (c : M A) (k : A → M B) :
  result c ≠ Halted → (∀ a, result (k a) ≠ Halted) → result (bind c k) ≠ Halted.
Proof.
  destruct c as [t [a| |]]; intros Hc Hk; try done.
  rewrite bind_done. apply Hk.
Qed.

Lemma printed_app t1 t2 : printed (t1 ++ t2) = printed t1 ++ printed t2.
Proof. apply List.filter_app. Qed.

End RunFacts.

(** ** The Multiboot2 information walk *)

Module Multiboot2Facts.
Import Multiboot2 MachineFacts RunFacts.

(** *** Simple runs *)

Lemma load32_eq mem a : load32 mem a = ([Fetch (u64 a) 4], Done (read_le mem a 4)).
Proof. reflexivity. Qed.

Lemma mmap_print_eq mem mmap :
  mmap_print mem mmap =
  ([Fetch (u64 (mmap + off_addr)) 8; Fetch (u64 (mmap + off_addr)) 8;
    Fetch (u64 (mmap + off_len)) 8; Fetch (u64 (mmap + off_len)) 8;
    Fetch (u64 (mmap + off_mmap_type)) 4; mmap_line mem mmap], Done tt).
Proof. reflexivity. Qed.

Lemma mmap_loop_S mem fuel tag mmap :
  mmap_loop mem (S fuel) tag mmap =
  bind (load32 mem (tag + off_size)) (λ size,
    if decide (mmap < u64 (tag + size)) then
      bind (mmap_print mem mmap) (λ _,
      bind (load32 mem (tag + off_entry_size)) (λ entry_size,
        mmap_loop mem fuel tag (u64 (mmap + entry_size))))
    else ret tt).
Proof. reflexivity. Qed.

Lemma tag_loop_S mem fuel tag :
  tag_loop mem (S fuel) tag =
  bind (load32 mem (tag + off_type)) (λ type,
    if decide (type ≠ MULTIBOOT_TAG_TYPE_END) then
      bind (tag_body mem fuel tag) (λ _,
      bind (load32 mem (tag + off_size)) (λ size,
        tag_loop mem fuel (tag_next tag size)))
    else ret tag).
Proof. reflexivity. Qed.

(** One more round of the inner loop, when the pointer is below the end
    of the tag. *)
Lemma mmap_loop_below mem fuel tag mmap :
  mmap < u64 (tag + tag_size mem tag) →
  result (mmap_loop mem (S fuel) tag mmap)
  = result (mmap_loop mem fuel tag (u64 (mmap + tag_entry_size mem tag)))
  ∧ printed (trace (mmap_loop mem (S fuel) tag mmap))
    = mmap_line mem mmap
      :: printed (trace (mmap_loop mem fuel tag (u64 (mmap + tag_entry_size mem tag)))).
Proof.
  intros Hlt. rewrite mmap_loop_S, load32_eq, bind_done.
  fold (tag_size mem tag). rewrite decide_True by done.
  rewrite mmap_print_eq, bind_done, load32_eq, bind_done.
  fold (tag_entry_size mem tag). by simpl.
Qed.

(** The inner loop stops when the pointer is at or past the end. *)
Lemma mmap_loop_at_end mem fuel tag mmap :
  ¬ mmap < u64 (tag + tag_size mem tag) →
  mmap_loop mem (S fuel) tag mmap = ([Fetch (u64 (tag + off_size)) 4], Done tt).
Proof.
  intros Hge. rewrite mmap_loop_S, load32_eq, bind_done.
  fold (tag_size mem tag). by rewrite decide_False.
Qed.

(** *** No run fails once the preconditions hold *)

Lemma mmap_loop_no_halt mem fuel : ∀ tag mmap,
  result (mmap_loop mem fuel tag mmap) ≠ Halted.
Proof.
  induction fuel as [|fuel IH]; intros tag mmap; [done|].
  destruct (decide (mmap < u64 (tag + tag_size mem tag))) as [Hlt|Hge].
  - destruct (mmap_loop_below mem fuel tag mmap Hlt) as [-> _]. apply IH.
  - by rewrite mmap_loop_at_end.
Qed.

Lemma tag_switch_no_halt mem fuel tag type :
  result (tag_switch mem fuel tag type) ≠ Halted.
Proof.
  unfold tag_switch. repeat case_decide; try done.
  unfold printf, emit. rewrite bind_done. apply mmap_loop_no_halt.
Qed.

Lemma tag_body_no_halt mem fuel tag : result (tag_body mem fuel tag) ≠ Halted.
Proof.
  unfold tag_body, printf, emit. rewrite !load32_eq, !bind_done.
  apply tag_switch_no_halt.
Qed.

Lemma tag_loop_no_halt mem fuel : ∀ tag, result (tag_loop mem fuel tag) ≠ Halted.
Proof.
  induction fuel as [|fuel IH]; intros tag; [done|].
  rewrite tag_loop_S, load32_eq, bind_done. case_decide; [|done].
  apply bind_no_halt; [apply tag_body_no_halt|]. intros _.
  rewrite load32_eq, bind_done. apply IH.
Qed.

(** Past the two checks, [check_multiboot2] is the report of the
    announced size followed by the walk. *)
Lemma check_multiboot2_checked mem fuel addr :
  Z.land addr 7 = 0 →
  check_multiboot2 mem fuel MULTIBOOT2_BOOTLOADER_MAGIC addr =
  bind ([CGA_clear_ev; Fetch (u64 addr) 4;
         Printf "Announced mbi size 0x%x\n" [total_size mem addr]], Done tt) (λ _,
  bind (tag_loop mem fuel (u64 (addr + 8))) (λ tag,
  bind (load32 mem (tag + off_size)) (λ size,
    printf "Total mbi size 0x%x\n" [u64 (u32 (tag_next tag size) - addr)]))).
Proof.
  intros Hal. unfold check_multiboot2, CGA_clear, emit.
  rewrite decide_False by (intros Hne; by apply Hne).
  rewrite decide_False by (intros Hne; by apply Hne).
  unfold total_size, ret, printf, emit. rewrite !load32_eq, !bind_done.
  reflexivity.
Qed.

Lemma check_multiboot2_no_halt mem fuel addr :
  Z.land addr 7 = 0 →
  result (check_multiboot2 mem fuel MULTIBOOT2_BOOTLOADER_MAGIC addr) ≠ Halted.
Proof.
  intros Hal. rewrite check_multiboot2_checked by done. rewrite bind_done.
  apply bind_no_halt; [apply tag_loop_no_halt|]. intros tag.
  by rewrite load32_eq, bind_done.
Qed.

(** The walk running out of fuel makes the whole run do so. *)
Lemma check_multiboot2_out_of_fuel mem fuel addr :
  Z.land addr 7 = 0 →
  result (tag_loop mem fuel (u64 (addr + 8))) = OutOfFuel →
  result (check_multiboot2 mem fuel MULTIBOOT2_BOOTLOADER_MAGIC addr) = OutOfFuel.
Proof.
  intros Hal Hloop. rewrite check_multiboot2_checked by done. rewrite bind_done.
  by apply result_bind_out_of_fuel.
Qed.

(** *** The padded advance *)

Lemma padded_eq size :
  0 ≤ size → padded size = 8 * (u32 (size + 7) / 8).
Proof.
  intros Hs. unfold padded.
  change (u32 (Z.lnot 7)) with (Z.land (Z.ones 32) (Z.lnot (Z.ones 3))).
  rewrite Z.land_assoc, Z.land_ones by lia.
  fold (u32 (u32 (size + 7))). rewrite u32_small by (apply Z.mod_pos_bound; lia).
  rewrite <- Z.ldiff_land, Z.ldiff_ones_r by lia.
  rewrite Z.shiftl_mul_pow2, Z.shiftr_div_pow2 by lia.
  change (2 ^ 3) with 8. lia.
Qed.

Lemma padded_round_up size :
  0 ≤ size ≤ 2 ^ 32 - 8 → padded size = round_up size 8.
Proof.
  intros Hs. rewrite padded_eq by lia. unfold round_up.
  rewrite u32_small by lia. f_equal. f_equal. lia.
Qed.

(** [round_up size 8] is the least multiple of 8 that is at least
    [size]. *)
Lemma round_up_least size :
  size ≤ round_up size 8 ∧ round_up size 8 mod 8 = 0
  ∧ ∀ n, size ≤ n → n mod 8 = 0 → round_up size 8 ≤ n.
Proof.
  unfold round_up. split_and!.
  - pose proof (Z.div_mod (size + 8 - 1) 8). pose proof (Z.mod_pos_bound (size + 8 - 1) 8). lia.
  - rewrite Z.mul_comm. apply Z.mod_mul. lia.
  - intros n Hn Hmod.
    pose proof (Z.div_mod n 8). pose proof (Z.div_mod (size + 8 - 1) 8).
    pose proof (Z.mod_pos_bound (size + 8 - 1) 8).
    assert ((size + 8 - 1) / 8 ≤ n / 8); [|lia].
    apply Z.div_le_lower_bound; lia.
Qed.

(** The top seven sizes wrap in [size + 7]: the advance is 0. *)
Lemma padded_wraps size : 2 ^ 32 - 7 ≤ size < 2 ^ 32 → padded size = 0.
Proof.
  intros Hs. rewrite padded_eq by lia. unfold u32.
  replace (size + 7) with (size + 7 - 2 ^ 32 + 1 * 2 ^ 32) by lia.
  rewrite Z.mod_add by lia. rewrite Z.mod_small by lia.
  rewrite Z.div_small by lia. lia.
Qed.

(** One round of the outer loop over a tag that is not the end tag. *)
Lemma tag_loop_step mem fuel tag :
  tag_type mem tag ≠ MULTIBOOT_TAG_TYPE_END →
  result (tag_body mem fuel tag) = Done tt →
  result (tag_loop mem (S fuel) tag)
  = result (tag_loop mem fuel (tag_next tag (tag_size mem tag))).
Proof.
  intros Hty Hbody. rewrite tag_loop_S, load32_eq, bind_done.
  fold (tag_type mem tag). rewrite decide_True by done.
  rewrite (result_bind_done _ _ tt) by done.
  by rewrite load32_eq, bind_done.
Qed.

(** The outer loop stops at an end tag. *)
Lemma tag_loop_end mem fuel tag :
  tag_type mem tag = MULTIBOOT_TAG_TYPE_END →
  tag_loop mem (S fuel) tag = ([Fetch (u64 (tag + off_type)) 4], Done tag).
Proof.
  intros Hty. rewrite tag_loop_S, load32_eq, bind_done.
  fold (tag_type mem tag). rewrite decide_False; [done|]. intros Hne. by apply Hne.
Qed.

(** A tag body ends well or runs out of fuel. *)
Lemma tag_body_cases mem fuel tag :
  result (tag_body mem fuel tag) = Done tt
  ∨ result (tag_body mem fuel tag) = OutOfFuel.
Proof.
  pose proof (tag_body_no_halt mem fuel tag) as Hh.
  destruct (result (tag_body mem fuel tag)) as [[]| |]; auto. done.
Qed.

(** A round over a tag that is not the end tag either runs out of fuel in
    the body or goes on with the next tag. *)
Lemma tag_loop_round mem fuel tag :
  tag_type mem tag ≠ MULTIBOOT_TAG_TYPE_END →
  result (tag_loop mem (S fuel) tag) = OutOfFuel
  ∨ result (tag_loop mem (S fuel) tag)
    = result (tag_loop mem fuel (tag_next tag (tag_size mem tag))).
Proof.
  intros Hty. destruct (tag_body_cases mem fuel tag) as [Hd|Ho].
  - right. by apply tag_loop_step.
  - left. rewrite tag_loop_S, load32_eq, bind_done.
    fold (tag_type mem tag). rewrite decide_True by done.
    by apply result_bind_out_of_fuel.
Qed.

(** *** Walks that never end *)

(** A tag that is not the end tag and sends the cursor back to itself. *)
Lemma tag_loop_stuck mem tag :
  tag_type mem tag ≠ MULTIBOOT_TAG_TYPE_END →
  tag_next tag (tag_size mem tag) = tag →
  ∀ fuel, result (tag_loop mem fuel tag) = OutOfFuel.
Proof.
  intros Hty Hnext fuel. induction fuel as [|fuel IH]; [done|].
  destruct (tag_loop_round mem fuel tag Hty) as [Ho|Hs]; [done|].
  by rewrite Hs, Hnext.
Qed.

(** The same, for a tag the walk comes to after [k] others. *)
Lemma tag_loop_reaches_stuck mem k : ∀ tag,
  (∀ j, (j ≤ k)%nat → tag_type mem (tag_at mem j tag) ≠ MULTIBOOT_TAG_TYPE_END) →
  tag_next (tag_at mem k tag) (tag_size mem (tag_at mem k tag)) = tag_at mem k tag →
  ∀ fuel, result (tag_loop mem fuel tag) = OutOfFuel.
Proof.
  induction k as [|k IH]; intros tag Hty Hnext fuel.
  - apply tag_loop_stuck; [apply (Hty 0%nat); lia | done].
  - destruct fuel as [|fuel]; [done|].
    destruct (tag_loop_round mem fuel tag) as [Ho|Hs]; [apply (Hty 0%nat); lia|done|].
    rewrite Hs. apply IH; [|done].
    intros j Hj. apply (Hty (S j)). lia.
Qed.

(** A memory map tag whose body never ends. *)
Lemma tag_loop_mmap_diverges mem tag :
  tag_type mem tag = MULTIBOOT_TAG_TYPE_MMAP →
  (∀ fuel, result (mmap_loop mem fuel tag (u64 (tag + off_entries))) = OutOfFuel) →
  ∀ fuel, result (tag_loop mem fuel tag) = OutOfFuel.
Proof.
  intros Hty Hloop [|fuel]; [done|].
  rewrite tag_loop_S, load32_eq, bind_done. fold (tag_type mem tag).
  rewrite Hty. rewrite decide_True by done.
  apply result_bind_out_of_fuel.
  unfold tag_body, printf, emit. rewrite !load32_eq, !bind_done.
  fold (tag_type mem tag). rewrite Hty.
  unfold tag_switch. repeat (rewrite decide_False by done).
  rewrite decide_True by done. unfold printf, emit. rewrite bind_done. apply Hloop.
Qed.

(** *** The entry loop of a memory map tag *)

(** With a stride of 0 the pointer stays below the end for ever. *)
Lemma mmap_loop_zero_stride mem tag mmap :
  tag_entry_size mem tag = 0 →
  u64 mmap = mmap →
  mmap < u64 (tag + tag_size mem tag) →
  ∀ fuel, result (mmap_loop mem fuel tag mmap) = OutOfFuel.
Proof.
  intros Hes Hm Hlt fuel. induction fuel as [|fuel IH]; [done|].
  destruct (mmap_loop_below mem fuel tag mmap Hlt) as [-> _].
  by rewrite Hes, Z.add_0_r, Hm.
Qed.

(** With a positive stride and no wrap-around of the pointer, the loop
    visits the [k] entries that start below the end of the tag. *)
Lemma mmap_loop_run mem tag (k : nat) : ∀ mmap fuel,
  (k < fuel)%nat →
  0 ≤ mmap →
  mmap + Z.of_nat k * tag_entry_size mem tag < 2 ^ 64 →
  0 ≤ tag + tag_size mem tag < 2 ^ 64 →
  (∀ i, 0 ≤ i < Z.of_nat k → mmap + i * tag_entry_size mem tag < tag + tag_size mem tag) →
  tag + tag_size mem tag ≤ mmap + Z.of_nat k * tag_entry_size mem tag →
  result (mmap_loop mem fuel tag mmap) = Done tt
  ∧ printed (trace (mmap_loop mem fuel tag mmap))
    = mmap_lines mem (tag_entry_size mem tag) k mmap.
Proof.
  pose proof (read_le_32_range mem (tag + off_entry_size)) as Hes.
  fold (tag_entry_size mem tag) in Hes.
  induction k as [|k IH]; intros mmap fuel Hfuel Hm Htop Hend Hbelow Hstop.
  - destruct fuel as [|fuel]; [lia|].
    rewrite mmap_loop_at_end; [done|].
    rewrite u64_small by done. lia.
  - destruct fuel as [|fuel]; [lia|].
    assert (Hlt : mmap < u64 (tag + tag_size mem tag)).
    { rewrite u64_small by done. specialize (Hbelow 0). lia. }
    destruct (mmap_loop_below mem fuel tag mmap Hlt) as [-> ->].
    rewrite u64_small by nia.
    destruct (IH (mmap + tag_entry_size mem tag) fuel) as [-> ->]; try done; try lia.
    + intros i Hi. specialize (Hbelow (i + 1)). lia.
Qed.

Lemma ceil_div_bounds a b :
  0 < b → b * (ceil_div a b - 1) < a ≤ b * ceil_div a b.
Proof.
  intros Hb. unfold ceil_div.
  pose proof (Z.div_mod (a + b - 1) b). pose proof (Z.mod_pos_bound (a + b - 1) b).
  lia.
Qed.

Lemma ceil_div_ragged a b :
  0 < b → a mod b ≠ 0 → ceil_div a b = a / b + 1.
Proof.
  intros Hb Hr. unfold ceil_div.
  pose proof (Z.div_mod a b). pose proof (Z.mod_pos_bound a b).
  symmetry. apply (Z.div_unique _ _ _ (a mod b - 1)); lia.
Qed.

Lemma mmap_lines_length mem stride k : ∀ mmap,
  length (mmap_lines mem stride k mmap) = k.
Proof. induction k as [|k IH]; intros mmap; simpl; [done | by rewrite IH]. Qed.

Lemma mmap_lines_lookup mem stride k : ∀ mmap (i : nat),
  (i < k)%nat →
  mmap_lines mem stride k mmap !! i = Some (mmap_line mem (mmap + Z.of_nat i * stride)).
Proof.
  induction k as [|k IH]; intros mmap i Hi; [lia|].
  destruct i as [|i]; simpl.
  - do 2 f_equal. lia.
  - rewrite IH by lia. do 2 f_equal. lia.
Qed.

Lemma mmap_lines_last mem stride k d : ∀ mmap,
  List.last (mmap_lines mem stride (S k) mmap) d
  = mmap_line mem (mmap + Z.of_nat k * stride).
Proof.
  induction k as [|k IH]; intros mmap.
  - simpl. f_equal. lia.
  - change (mmap_lines mem stride (S (S k)) mmap)
      with (mmap_line mem mmap :: mmap_lines mem stride (S k) (mmap + stride)).
    change (List.last (?x :: mmap_lines mem stride (S k) ?a) d)
      with (List.last (mmap_lines mem stride (S k) a) d).
    rewrite IH. f_equal. lia.
Qed.

(** The entry loop of a tag with a positive stride, counted. *)
Lemma mmap_loop_positive_stride mem tag fuel :
  let size := tag_size mem tag in
  let stride := tag_entry_size mem tag in
  let n := Z.to_nat (ceil_div (size - off_entries) stride) in
  0 ≤ tag → 0 < stride → tag + off_entries + size + stride < 2 ^ 64 →
  (n < fuel)%nat →
  result (mmap_loop mem fuel tag (u64 (tag + off_entries))) = Done tt
  ∧ printed (trace (mmap_loop mem fuel tag (u64 (tag + off_entries))))
    = mmap_lines mem stride n (tag + off_entries).
Proof.
  intros size stride n Htag Hstride Htop Hfuel.
  pose proof (read_le_32_range mem (tag + off_size)) as Hsz. fold (tag_size mem tag) in Hsz.
  pose proof (ceil_div_bounds (size - off_entries) stride Hstride) as Hc.
  unfold off_entries in *. fold size in Hsz.
  rewrite u64_small by lia.
  apply mmap_loop_run; fold size stride; first [lia | nia | intros i Hi; nia].
Qed.

(** Bytes laid out in memory, checked by evaluation. *)
Lemma holds_check m a bytes :
  forallb (λ i : nat, bool_decide (byte_at m (a + Z.of_nat i) = nth i bytes 0))
    (seq 0 (length bytes)) = true →
  holds m a bytes.
Proof.
  intros Hall i Hi. rewrite forallb_forall in Hall.
  specialize (Hall i). rewrite bool_decide_eq_true in Hall.
  apply Hall. apply in_seq. lia.
Qed.

(** An entry laid out at [mmap] is printed with its own fields. *)
Lemma mmap_line_fields mem mmap e rest :
  entry_wf e →
  holds mem mmap (encode_entry e ++ rest) →
  line_fields (mmap_line mem mmap) = Some (entry_fields e).
Proof.
  intros (Ha & Hl & Ht) Hm. apply holds_app_l in Hm. unfold encode_entry in Hm.
  pose proof (holds_app_l _ _ _ _ Hm) as H1.
  apply holds_app_r in Hm. rewrite length_le_bytes in Hm.
  pose proof (holds_app_l _ _ _ _ Hm) as H2.
  apply holds_app_r in Hm. rewrite length_le_bytes in Hm.
  pose proof (holds_app_l _ _ _ _ Hm) as H3.
  apply read_le_bytes in H1, H2, H3.
  change (256 ^ Z.of_nat 8) with (2 ^ 64) in *.
  change (256 ^ Z.of_nat 4) with (2 ^ 32) in *.
  rewrite Z.mod_small in H1, H2, H3 by done.
  unfold mmap_line, line_fields, entry_fields, off_addr, off_len, off_mmap_type.
  rewrite Z.add_0_r, H1.
  replace (mmap + 8) with (mmap + Z.of_nat 8) by lia. rewrite H2.
  replace (mmap + 16) with (mmap + Z.of_nat 8 + Z.of_nat 8) by lia. rewrite H3.
  rewrite !halves_64 by done. by rewrite u32_small.
Qed.

Lemma length_encode_entry e : length (encode_entry e) = 24%nat.
Proof. unfold encode_entry. by rewrite !length_app, !length_le_bytes. Qed.

Lemma mmap_lines_fields mem entries : ∀ mmap,
  Forall entry_wf entries →
  holds mem mmap (concat (encode_entry <$> entries)) →
  line_fields <$> mmap_lines mem 24 (length entries) mmap
  = Some ∘ entry_fields <$> entries.
Proof.
  induction entries as [|e entries IH]; intros mmap Hwf Hm; [done|].
  apply Forall_cons in Hwf as [He Hwf].
  change (concat (encode_entry <$> e :: entries))
    with (encode_entry e ++ concat (encode_entry <$> entries)) in Hm.
  change (mmap_lines mem 24 (length (e :: entries)) mmap)
    with (mmap_line mem mmap :: mmap_lines mem 24 (length entries) (mmap + 24)).
  rewrite !fmap_cons.
  rewrite (mmap_line_fields mem mmap e _ He Hm). f_equal.
  apply IH; [done|]. apply holds_app_r in Hm.
  by rewrite length_encode_entry in Hm.
Qed.

Lemma tag_at_u64 mem k : ∀ tag, u64 tag = tag → u64 (tag_at mem k tag) = tag_at mem k tag.
Proof.
  induction k as [|k IH]; intros tag Htag; [done|].
  simpl. apply IH. unfold tag_next. apply u64_idemp.
Qed.

Lemma low_bit_set_land_7 a i :
  0 ≤ i < 3 → Z.testbit a i = true → Z.land a 7 ≠ 0.
Proof.
  intros Hi Hb H0.
  assert (Z.testbit (Z.land a 7) i = true) as Hland.
  { rewrite Z.land_spec, Hb.
    assert (i = 0 ∨ i = 1 ∨ i = 2) as [->|[->| ->]] by lia; reflexivity. }
  rewrite H0, Z.bits_0 in Hland. done.
Qed.

End Multiboot2Facts.

(** ** The boot information parser against its specification *)

Module Multiboot2Spec.
Import Multiboot2 Samples MachineFacts RunFacts Multiboot2Facts.

(** A well-formed structure is walked to its end tag: the command line,
    the two memory map entries and the total size are reported. *)
Example good_mbi_run :
  result (check_multiboot2 good_mbi 5 MULTIBOOT2_BOOTLOADER_MAGIC base) = Done tt
  ∧ printed (trace (check_multiboot2 good_mbi 5 MULTIBOOT2_BOOTLOADER_MAGIC base))
    = [ Printf "Announced mbi size 0x%x\n" [96];
        Printf "Tag 0x%x, Size 0x%x\n" [1; 10];
        Printf "Command line = %s\n" [base + 16];
        Printf "Tag 0x%x, Size 0x%x\n" [6; 64];
        Printf "mmap\n" [];
        Printf " base_addr = 0x%x%x, length = 0x%x%x, type = 0x%x\n" [0; 0; 0; 0x9fc00; 1];
        Printf " base_addr = 0x%x%x, length = 0x%x%x, type = 0x%x\n" [1; 0; 0; 0x7ee0000; 2];
        Printf "Total mbi size 0x%x\n" [96] ].
Proof. by vm_compute. Qed.

(** *** C1: the announced size *)

(** C1, as stated, fails: in [overrun_mbi] the header announces 8 bytes,
    the first tag brings the consumed count to 24, and the run completes
    without a failure; no amount of fuel makes it fail. *)
Lemma overrun_not_rejected :
  let first := u64 (base + 8) in
  tag_type overrun_mbi first ≠ MULTIBOOT_TAG_TYPE_END
  ∧ consumed overrun_mbi 1 first > total_size overrun_mbi base
  ∧ result (check_multiboot2 overrun_mbi 3 MULTIBOOT2_BOOTLOADER_MAGIC base) = Done tt
  ∧ ∀ fuel,
      result (check_multiboot2 overrun_mbi fuel MULTIBOOT2_BOOTLOADER_MAGIC base) ≠ Halted.
Proof.
  split_and!; [by vm_compute | by vm_compute | by vm_compute |].
  intros fuel. by apply check_multiboot2_no_halt.
Qed.

(** C1, amended: [check_multiboot2] reads the announced size at offset 0
    and reports it, and that is all it does with it.  Once the magic
    number and the alignment are right no run fails, whatever the
    announced size and the sizes of the tags are: the run completes
    exactly when the walk comes to an end tag. *)
Theorem announced_size_only_reported mem fuel addr :
  Z.land addr 7 = 0 →
  let run := check_multiboot2 mem fuel MULTIBOOT2_BOOTLOADER_MAGIC addr in
  result run ≠ Halted
  ∧ (∃ t, trace run
          = CGA_clear_ev :: Fetch (u64 addr) 4
            :: Printf "Announced mbi size 0x%x\n" [total_size mem addr] :: t)
  ∧ (result run = Done tt ↔ ∃ e, result (tag_loop mem fuel (u64 (addr + 8))) = Done e).
Proof.
  intros Hal run. split_and!.
  - by apply check_multiboot2_no_halt.
  - unfold run. rewrite check_multiboot2_checked by done. rewrite bind_done.
    eexists. reflexivity.
  - unfold run. rewrite check_multiboot2_checked by done. rewrite bind_done.
    change (result (?t, ?r)) with r.
    destruct (tag_loop mem fuel (u64 (addr + 8))) as [t [e| |]] eqn:Hloop.
    + rewrite bind_done, load32_eq, bind_done. split; [eauto|done].
    + split; [done|]. by intros [e He].
    + split; [done|]. by intros [e He].
Qed.

Lemma announced_size_only_reported_witness :
  Z.land base 7 = 0
  ∧ result (check_multiboot2 overrun_mbi 3 MULTIBOOT2_BOOTLOADER_MAGIC base) ≠ Halted.
Proof.
  split; [reflexivity|].
  apply (announced_size_only_reported overrun_mbi 3 base). reflexivity.
Defined.

(** *** C4: the two preconditions *)

(** C4: when the magic number is wrong or the address is not a multiple
    of 8 (any of its three low bits set), the run halts with a report and
    has read nothing, whatever the memory holds. *)
Theorem precondition_failure_halts_before_reading mem fuel magic addr :
  magic ≠ MULTIBOOT2_BOOTLOADER_MAGIC
  ∨ Z.land addr 7 ≠ 0
  ∨ (∃ i, 0 ≤ i < 3 ∧ Z.testbit addr i = true) →
  let run := check_multiboot2 mem fuel magic addr in
  result run = Halted
  ∧ (∃ fmt args, trace run = [CGA_clear_ev; Panicf fmt args])
  ∧ List.filter is_fetch (trace run) = [].
Proof.
  intros Hbad run.
  assert (magic ≠ MULTIBOOT2_BOOTLOADER_MAGIC ∨ Z.land addr 7 ≠ 0) as Hbad'.
  { destruct Hbad as [?|[?|(i & Hi & Hb)]]; eauto using low_bit_set_land_7. }
  clear Hbad. unfold run, check_multiboot2, CGA_clear, emit. rewrite bind_done.
  destruct (decide (magic ≠ MULTIBOOT2_BOOTLOADER_MAGIC)) as [Hm|Hm].
  - split_and!; [done | by eexists _, _ | done].
  - destruct Hbad' as [?|Ha]; [done|].
    change (ret tt) with (([] : list event), Done tt). rewrite bind_done.
    rewrite decide_True by done.
    split_and!; [done | by eexists _, _ | done].
Qed.

Lemma precondition_failure_halts_before_reading_witness :
  (∃ i, 0 ≤ i < 3 ∧ Z.testbit (base + 4) i = true)
  ∧ result (check_multiboot2 good_mbi 4 MULTIBOOT2_BOOTLOADER_MAGIC (base + 4)) = Halted
  ∧ List.filter is_fetch
      (trace (check_multiboot2 good_mbi 4 MULTIBOOT2_BOOTLOADER_MAGIC (base + 4))) = [].
Proof.
  assert (∃ i, 0 ≤ i < 3 ∧ Z.testbit (base + 4) i = true) as Hbit.
  { exists 2. split; [lia | reflexivity]. }
  split; [exact Hbit|].
  destruct (precondition_failure_halts_before_reading good_mbi 4
              MULTIBOOT2_BOOTLOADER_MAGIC (base + 4)) as (Hr & _ & Hl).
  - right. right. exact Hbit.
  - split; [exact Hr | exact Hl].
Defined.

(** *** C5: the padding law *)

(** C5, as stated, fails: a size field of [0xffffffff] wraps in
    [size + 7], the advance is 0 and not the next multiple of 8, and the
    cursor stays where it is. *)
Lemma padding_law_wraps :
  let tag := u64 (base + 8) in
  let size := tag_size wrap_size_mbi tag in
  size = 0xffffffff
  ∧ padded size = 0
  ∧ round_up size 8 = 2 ^ 32
  ∧ tag_next tag size = tag
  ∧ tag_next tag size ≠ u64 (tag + round_up size 8).
Proof. by vm_compute. Qed.

(** C5, amended: for every tag whose size is at most [2^32 - 8] the
    cursor advances by the size rounded up to the next multiple of 8; a
    size of 9 advances it by 16 and a size of 16 by exactly 16. *)
Theorem padding_law mem fuel tag :
  let size := tag_size mem tag in
  size ≤ 2 ^ 32 - 8 →
  padded size = round_up size 8
  ∧ tag_next tag size = u64 (tag + round_up size 8)
  ∧ (tag_type mem tag ≠ MULTIBOOT_TAG_TYPE_END →
     result (tag_body mem fuel tag) = Done tt →
     result (tag_loop mem (S fuel) tag)
     = result (tag_loop mem fuel (u64 (tag + round_up size 8))))
  ∧ padded 9 = 16 ∧ padded 16 = 16.
Proof.
  intros size Hsize.
  pose proof (read_le_32_range mem (tag + off_size)) as Hr.
  fold (tag_size mem tag) in Hr. fold size in Hr.
  assert (padded size = round_up size 8) as Hp by (apply padded_round_up; lia).
  split_and!; [done | by unfold tag_next; rewrite Hp | | done | done].
  intros Hty Hbody. rewrite (tag_loop_step mem fuel tag Hty Hbody).
  fold size. unfold tag_next. by rewrite Hp.
Qed.

Lemma padding_law_witness :
  tag_size good_mbi (base + 8) ≤ 2 ^ 32 - 8
  ∧ tag_next (base + 8) (tag_size good_mbi (base + 8)) = base + 24
  ∧ result (tag_loop good_mbi 1 (base + 8)) = result (tag_loop good_mbi 0 (base + 24)).
Proof.
  assert (tag_size good_mbi (base + 8) ≤ 2 ^ 32 - 8) as Hs by (by vm_compute).
  split; [exact Hs|].
  destruct (padding_law good_mbi 0 (base + 8) Hs) as (_ & Hnext & Hloop & _).
  split.
  - rewrite Hnext. reflexivity.
  - rewrite (Hloop ltac:(by vm_compute) ltac:(by vm_compute)). reflexivity.
Defined.

(** *** C6: decoding a memory map *)

(** C6: a memory map tag with [entry_size = 24] and N entries laid out
    back to back from the start of its payload is reported as the line
    "mmap" followed by exactly N entry lines, in order, that carry the
    address, length and type of the entries as encoded. *)
Theorem mmap_decoding mem tag (entries : list mmap_entry) fuel :
  let n := length entries in
  0 ≤ tag → tag + off_entries + 24 * Z.of_nat n < 2 ^ 64 →
  tag_size mem tag = off_entries + 24 * Z.of_nat n →
  tag_entry_size mem tag = 24 →
  Forall entry_wf entries →
  holds mem (tag + off_entries) (concat (encode_entry <$> entries)) →
  (n < fuel)%nat →
  let run := tag_switch mem fuel tag MULTIBOOT_TAG_TYPE_MMAP in
  result run = Done tt
  ∧ ∃ lines,
      printed (trace run) = Printf "mmap\n" [] :: lines
      ∧ lines = mmap_lines mem 24 n (tag + off_entries)
      ∧ length lines = n
      ∧ line_fields <$> lines = Some ∘ entry_fields <$> entries.
Proof.
  intros n Htag Htop Hsize Hstride Hwf Hm Hfuel run.
  unfold off_entries in *.
  destruct (mmap_loop_run mem tag n (tag + 16) fuel) as [Hres Hlines];
    rewrite ?Hsize, ?Hstride; try lia.
  assert (run = bind (printf "mmap\n" [])
                  (λ _, mmap_loop mem fuel tag (tag + 16))) as ->.
  { unfold run, tag_switch. repeat (rewrite decide_False by done).
    rewrite decide_True by done. unfold off_entries. by rewrite u64_small by lia. }
  unfold printf, emit. rewrite bind_done. split; [done|].
  exists (mmap_lines mem 24 n (tag + 16)). split_and!.
  - change (trace (?t, ?r)) with t. rewrite printed_app, Hlines.
    by rewrite Hstride.
  - done.
  - apply mmap_lines_length.
  - by apply mmap_lines_fields.
Qed.

Lemma mmap_two_holds :
  holds good_mbi (base + 24 + off_entries)
    (concat (encode_entry <$> [entry1; entry2])).
Proof. apply holds_check. by vm_compute. Qed.

Lemma mmap_decoding_witness :
  result (tag_switch good_mbi 3 (base + 24) MULTIBOOT_TAG_TYPE_MMAP) = Done tt
  ∧ ∃ lines,
      printed (trace (tag_switch good_mbi 3 (base + 24) MULTIBOOT_TAG_TYPE_MMAP))
      = Printf "mmap\n" [] :: lines
      ∧ lines = mmap_lines good_mbi 24 2 (base + 24 + off_entries)
      ∧ length lines = 2%nat
      ∧ line_fields <$> lines = Some ∘ entry_fields <$> [entry1; entry2].
Proof.
  apply (mmap_decoding good_mbi (base + 24) [entry1; entry2] 3).
  - by vm_compute.
  - by vm_compute.
  - by vm_compute.
  - by vm_compute.
  - repeat constructor; by vm_compute.
  - exact mmap_two_holds.
  - simpl. lia.
Defined.

(** *** C9: a tag of size 0 *)

(** The walk can only come to an end if no tag before the end tag sends
    the cursor back to itself. *)
Lemma termination_moves_cursor mem fuel addr k :
  Z.land addr 7 = 0 →
  let first := u64 (addr + 8) in
  result (check_multiboot2 mem fuel MULTIBOOT2_BOOTLOADER_MAGIC addr) = Done tt →
  (∀ j, (j ≤ k)%nat → tag_type mem (tag_at mem j first) ≠ MULTIBOOT_TAG_TYPE_END) →
  tag_next (tag_at mem k first) (tag_size mem (tag_at mem k first)) ≠ tag_at mem k first.
Proof.
  intros Hal first Hdone Hty Hstuck.
  pose proof (tag_loop_reaches_stuck mem k first Hty Hstuck fuel) as Hloop.
  apply (check_multiboot2_out_of_fuel mem fuel addr Hal) in Hloop.
  rewrite Hloop in Hdone. done.
Qed.

(** C9: when the walk comes to a tag that is not the end tag and whose
    size field is 0, the padded advance is 0, the cursor does not move and
    the run never ends: every amount of fuel runs out.  So a run that
    ends has met no such tag. *)
Theorem zero_size_tag_never_terminates mem addr k :
  Z.land addr 7 = 0 →
  let first := u64 (addr + 8) in
  let tag := tag_at mem k first in
  (∀ j, (j ≤ k)%nat → tag_type mem (tag_at mem j first) ≠ MULTIBOOT_TAG_TYPE_END) →
  tag_size mem tag = 0 →
  padded (tag_size mem tag) = 0
  ∧ tag_next tag (tag_size mem tag) = tag
  ∧ ∀ fuel,
      result (check_multiboot2 mem fuel MULTIBOOT2_BOOTLOADER_MAGIC addr) = OutOfFuel.
Proof.
  intros Hal first tag Hty Hsize.
  assert (tag_next tag (tag_size mem tag) = tag) as Hstuck.
  { rewrite Hsize. unfold tag_next. change (padded 0) with 0.
    rewrite Z.add_0_r. apply tag_at_u64, u64_idemp. }
  split_and!; [by rewrite Hsize | done |].
  intros fuel. apply check_multiboot2_out_of_fuel; [done|].
  by apply (tag_loop_reaches_stuck mem k first).
Qed.

Lemma zero_size_tag_never_terminates_witness :
  Z.land base 7 = 0
  ∧ tag_size zero_size_mbi (u64 (base + 8)) = 0
  ∧ ∀ fuel,
      result (check_multiboot2 zero_size_mbi fuel MULTIBOOT2_BOOTLOADER_MAGIC base)
      = OutOfFuel.
Proof.
  split; [reflexivity|]. split; [by vm_compute|].
  apply (zero_size_tag_never_terminates zero_size_mbi base 0).
  - reflexivity.
  - intros j Hj. assert (j = 0%nat) as -> by lia. by vm_compute.
  - by vm_compute.
Defined.

(** *** C10: a payload that is not a whole number of entries *)

(** C10: when the payload of a memory map tag is not a whole number of
    strides, the loop also reports the entry that starts before the end
    of the tag and reaches past it: the number of entries reported is the
    payload length divided by the stride, rounded up. *)
Theorem mmap_ragged_payload_rounds_up mem tag fuel :
  let size := tag_size mem tag in
  let stride := tag_entry_size mem tag in
  let payload := size - off_entries in
  let n := ceil_div payload stride in
  let last := tag + off_entries + (n - 1) * stride in
  0 ≤ tag → tag + off_entries + size + stride < 2 ^ 64 →
  0 < stride → 0 ≤ payload → payload mod stride ≠ 0 →
  (Z.to_nat n < fuel)%nat →
  let run := mmap_loop mem fuel tag (u64 (tag + off_entries)) in
  result run = Done tt
  ∧ Z.of_nat (length (printed (trace run))) = n
  ∧ n = payload / stride + 1
  ∧ last < tag + size < last + stride
  ∧ List.last (printed (trace run)) CGA_clear_ev = mmap_line mem last.
Proof.
  intros size stride payload n last Htag Htop Hstride Hpay Hrag Hfuel run.
  destruct (mmap_loop_positive_stride mem tag fuel) as [Hres Hlines]; try done.
  fold size stride payload n in Hlines. fold run in Hres, Hlines.
  pose proof (ceil_div_bounds payload stride Hstride) as Hb. fold n in Hb.
  pose proof (ceil_div_ragged payload stride Hstride Hrag) as Hn. fold n in Hn.
  assert (0 ≤ payload / stride) by (apply Z.div_pos; lia).
  assert (tag + size ≠ last + stride) as Hne.
  { intros Heq. apply Hrag. unfold last in Heq.
    replace payload with (n * stride) by (unfold payload; lia).
    apply Z.mod_mul. lia. }
  split; [done|]. split; [rewrite Hlines, mmap_lines_length; lia|].
  split; [done|]. split; [unfold last, payload in *; lia|].
  rewrite Hlines. replace (Z.to_nat n) with (S (Z.to_nat (n - 1))) by lia.
  rewrite mmap_lines_last. unfold last. rewrite Z2Nat.id by lia. done.
Qed.

Lemma mmap_ragged_payload_rounds_up_witness :
  tag_size ragged_mbi (base + 8) - off_entries = 40
  ∧ tag_entry_size ragged_mbi (base + 8) = 24
  ∧ Z.of_nat (length (printed (trace
      (mmap_loop ragged_mbi 3 (base + 8) (u64 (base + 8 + off_entries)))))) = 2
  ∧ base + 8 + off_entries + 24 < base + 8 + 56 < base + 8 + off_entries + 48.
Proof.
  split; [by vm_compute|]. split; [by vm_compute|].
  destruct (mmap_ragged_payload_rounds_up ragged_mbi (base + 8) 3
              ltac:(by vm_compute) ltac:(by vm_compute) ltac:(by vm_compute)
              ltac:(by vm_compute) ltac:(by vm_compute) ltac:(vm_compute; lia))
    as (_ & Hlen & _ & Hlast & _).
  split; [exact Hlen | exact Hlast].
Defined.

(** *** C2: the stride of a memory map *)

(** C2, as stated, fails: [zero_stride_mbi] holds a memory map tag whose
    [entry_size] is 0 and whose payload has room for an entry; the run
    does not fail, it prints the same entry again and again and never
    ends. *)
Lemma zero_stride_not_rejected :
  let tag := u64 (base + 8) in
  tag_type zero_stride_mbi tag = MULTIBOOT_TAG_TYPE_MMAP
  ∧ tag_entry_size zero_stride_mbi tag = 0
  ∧ ∀ fuel,
      result (check_multiboot2 zero_stride_mbi fuel MULTIBOOT2_BOOTLOADER_MAGIC base)
      = OutOfFuel
      ∧ result (check_multiboot2 zero_stride_mbi fuel MULTIBOOT2_BOOTLOADER_MAGIC base)
        ≠ Halted.
Proof.
  intros tag. split; [by vm_compute|]. split; [by vm_compute|].
  intros fuel.
  assert (result (check_multiboot2 zero_stride_mbi fuel MULTIBOOT2_BOOTLOADER_MAGIC base)
          = OutOfFuel) as Hrun; [|by rewrite Hrun].
  apply check_multiboot2_out_of_fuel; [reflexivity|].
  apply tag_loop_mmap_diverges; [by vm_compute|].
  apply mmap_loop_zero_stride; by vm_compute.
Qed.

(** C2, amended: there is no failure for a stride of 0: a memory map tag
    never makes the run fail, whatever its [entry_size] is.  When
    [entry_size] is positive and the tag lies far enough below the top of
    the address space for the pointer not to wrap around, the entry loop
    ends, after the payload length divided by the stride, rounded up,
    entries. *)
Theorem mmap_stride mem tag :
  let size := tag_size mem tag in
  let stride := tag_entry_size mem tag in
  0 ≤ tag → tag + off_entries + size + stride < 2 ^ 64 →
  (∀ fuel, result (tag_switch mem fuel tag MULTIBOOT_TAG_TYPE_MMAP) ≠ Halted)
  ∧ (0 < stride →
     ∀ fuel, (Z.to_nat (ceil_div (size - off_entries) stride) < fuel)%nat →
       result (mmap_loop mem fuel tag (u64 (tag + off_entries))) = Done tt
       ∧ result (tag_switch mem fuel tag MULTIBOOT_TAG_TYPE_MMAP) = Done tt).
Proof.
  intros size stride Htag Htop. split.
  - intros fuel. apply tag_switch_no_halt.
  - intros Hstride fuel Hfuel.
    destruct (mmap_loop_positive_stride mem tag fuel) as [Hres _]; try done.
    split; [done|]. unfold tag_switch. repeat (rewrite decide_False by done).
    rewrite decide_True by done. unfold printf, emit. by rewrite bind_done.
Qed.

Lemma mmap_stride_witness :
  0 < tag_entry_size good_mbi (base + 24)
  ∧ result (mmap_loop good_mbi 3 (base + 24) (u64 (base + 24 + off_entries))) = Done tt.
Proof.
  assert (0 < tag_entry_size good_mbi (base + 24)) as Hpos by (by vm_compute).
  split; [exact Hpos|].
  destruct (mmap_stride good_mbi (base + 24)
              ltac:(by vm_compute) ltac:(by vm_compute)) as [_ Hloop].
  apply (Hloop Hpos 3%nat). vm_compute. lia.
Defined.

End Multiboot2Spec.

(** ** CPU exception defaults *)

Module ExceptionFacts.
Import Exception.

(** Each call adds one entry to the history. *)
Lemma exception_defaults_calls (calls : list (Z * interrupt_handler)) :
  exception_defaults calls = calls ++ default_calls.
Proof.
  unfold default_calls, exception_defaults, plugbox_assign, plugbox_calls.
  cbv zeta. rewrite <- !(assoc_L (++)). reflexivity.
Qed.

(** The table after [exception_defaults] is the default table laid over
    the table before. *)
Lemma exception_defaults_table (pb : gmap Z interrupt_handler) :
  exception_defaults pb = default_table ∪ pb.
Proof.
  unfold default_table, exception_defaults, plugbox_assign, plugbox_table.
  cbv zeta. rewrite <- !insert_union_l. by rewrite (left_id_L ∅ (∪)).
Qed.

Lemma exception_defaults_lookup (pb : gmap Z interrupt_handler) v h :
  default_table !! v = Some h → exception_defaults pb !! v = Some h.
Proof.
  intros Hv. rewrite exception_defaults_table. by apply lookup_union_Some_l.
Qed.

Lemma exception_defaults_lookup_other (pb : gmap Z interrupt_handler) v :
  default_table !! v = None → exception_defaults pb !! v = pb !! v.
Proof.
  intros Hv. rewrite exception_defaults_table. by apply lookup_union_r.
Qed.

Lemma default_table_dom : dom default_table = list_to_set defined_vectors.
Proof.
  unfold default_table, exception_defaults, plugbox_assign, plugbox_table.
  cbv zeta. rewrite !dom_insert_L, dom_empty_L.
  apply set_eq. intros v. rewrite elem_of_list_to_set.
  unfold defined_vectors, descriptors. simpl.
  rewrite !elem_of_cons, elem_of_nil.
  rewrite !elem_of_union, !elem_of_singleton, elem_of_empty.
  unfold int_de, int_db, int_nmi, int_bp, int_of, int_br, int_ud, int_nm, int_df,
    int_ts, int_np, int_ss, int_gp, int_pf, int_mf, int_ac, int_mc, int_xm, int_ve,
    int_cp, int_hv, int_vc, int_sx.
  tauto.
Qed.

(** A property of every vector of an explicit list, one vector at a
    time. *)
Ltac each_vector tac :=
  cbv [defined_vectors reserved_vectors descriptors fmap list_fmap vector];
  repeat (apply List.Forall_cons; [tac|]); apply List.Forall_nil.

Lemma invoke_defaults (pb : gmap Z interrupt_handler) v :
  is_Some (default_table !! v) →
  invoke (exception_defaults pb) v = invoke default_table v.
Proof.
  intros [h Hh]. unfold invoke.
  by rewrite (exception_defaults_lookup pb v h Hh), Hh.
Qed.

Lemma default_table_defined :
  Forall (λ v, is_Some (default_table !! v)) defined_vectors.
Proof. each_vector ltac:(vm_compute; by eexists). Qed.

End ExceptionFacts.

(** ** The exception registry against its specification *)

Module ExceptionSpec.
Import Exception RunFacts ExceptionFacts.

(** *** C3: what the default handlers report *)

(** C3 fails at vector 5: the handler [exception_defaults] registers for
    it emits "Bound Range extended", while the source documents the
    exception as "Bound Range Exceeded"; it does report non-resumable.
    The handlers of the other 22 defined vectors emit exactly the
    documented name and report non-resumable. *)
Theorem bound_range_handler_misnamed (pb : gmap Z interrupt_handler) :
  emitted <$> invoke (exception_defaults pb) int_br = Some (Some "Bound Range extended")
  ∧ descriptor_name int_br = Some "Bound Range Exceeded"
  ∧ result <$> invoke (exception_defaults pb) int_br = Some (Done false)
  ∧ Forall (λ v,
      emitted <$> invoke (exception_defaults pb) v = Some (descriptor_name v)
      ∧ is_Some (descriptor_name v)
      ∧ result <$> invoke (exception_defaults pb) v = Some (Done false))
    (List.filter (λ v, bool_decide (v ≠ int_br)) defined_vectors).
Proof.
  split_and!.
  - rewrite invoke_defaults by (vm_compute; by eexists). by vm_compute.
  - by vm_compute.
  - rewrite invoke_defaults by (vm_compute; by eexists). by vm_compute.
  - let others := eval vm_compute in
          (List.filter (λ v, bool_decide (v ≠ int_br)) defined_vectors) in
    change (List.filter (λ v, bool_decide (v ≠ int_br)) defined_vectors) with others.
    each_vector ltac:(rewrite invoke_defaults by (vm_compute; by eexists);
                      vm_compute; split_and!; [done | by eexists | done]).
Qed.

(** *** C7: the reserved vectors *)

(** C7: [exception_defaults] makes 23 calls of [plugbox_assign], one for
    each of the 23 defined vectors and none for the reserved vectors 9 and
    15, whose entries in the table stay as they were; the vectors bound
    afterwards are the defined ones and those bound before. *)
Theorem reserved_vectors_never_assigned
    (calls : list (Z * interrupt_handler)) (pb : gmap Z interrupt_handler) :
  let made := drop (length calls) (exception_defaults calls) in
  exception_defaults calls = calls ++ made
  ∧ length made = 23%nat
  ∧ length defined_vectors = 23%nat
  ∧ Forall (λ v, times v (assigned made) = 0%nat) reserved_vectors
  ∧ Forall (λ v, times v (assigned made) = 1%nat) defined_vectors
  ∧ Forall (λ v, exception_defaults pb !! v = pb !! v) reserved_vectors
  ∧ dom (exception_defaults pb) = list_to_set defined_vectors ∪ dom pb.
Proof.
  intros made.
  assert (made = default_calls) as ->.
  { unfold made. by rewrite exception_defaults_calls, drop_app_length. }
  split_and!.
  - apply exception_defaults_calls.
  - by vm_compute.
  - by vm_compute.
  - each_vector ltac:(by vm_compute).
  - each_vector ltac:(by vm_compute).
  - each_vector ltac:(apply exception_defaults_lookup_other; by vm_compute).
  - by rewrite exception_defaults_table, dom_union_L, default_table_dom.
Qed.

(** *** C8: running the defaults twice *)

(** C8: a second [exception_defaults] leaves the table as the first one
    made it.  Every defined vector is bound to its default handler,
    whatever the table held before, and the table holds one binding per
    vector: 23 of them when it started out empty. *)
Theorem exception_defaults_idempotent (pb : gmap Z interrupt_handler) :
  exception_defaults (exception_defaults pb) = exception_defaults pb
  ∧ Forall (λ v,
      is_Some (default_table !! v)
      ∧ exception_defaults pb !! v = default_table !! v
      ∧ exception_defaults (exception_defaults pb) !! v = default_table !! v)
    defined_vectors
  ∧ NoDup (map_to_list (exception_defaults (exception_defaults pb))).*1
  ∧ size (exception_defaults (exception_defaults (∅ : gmap Z interrupt_handler)))
    = 23%nat.
Proof.
  assert (exception_defaults (exception_defaults pb) = exception_defaults pb) as Htwice.
  { rewrite !exception_defaults_table.
    by rewrite (assoc_L (∪)), (idemp_L (∪)). }
  split_and!.
  - done.
  - rewrite Htwice. apply Forall_forall. intros v Hv.
    pose proof default_table_defined as Hdef. rewrite Forall_forall in Hdef.
    destruct (Hdef v Hv) as [h Hh].
    rewrite (exception_defaults_lookup pb v h Hh), Hh. eauto.
  - apply NoDup_fst_map_to_list.
  - by vm_compute.
Qed.

End ExceptionSpec.

(** ** Further properties of the walk *)

Module WalkFacts.
Import Multiboot2 Samples Walks MachineFacts RunFacts Multiboot2Facts.

Lemma tag_size_range mem tag : 0 ≤ tag_size mem tag < 2 ^ 32.
Proof. apply read_le_32_range. Qed.

Lemma tag_entry_size_range mem tag : 0 ≤ tag_entry_size mem tag < 2 ^ 32.
Proof. apply read_le_32_range. Qed.

Lemma u32_range z : 0 ≤ u32 z < 2 ^ 32.
Proof. unfold u32. apply Z.mod_pos_bound. lia. Qed.

Lemma padded_range size : 0 ≤ size → 0 ≤ padded size < 2 ^ 32 ∧ padded size mod 8 = 0.
Proof.
  intros Hs. rewrite padded_eq by done.
  pose proof (u32_range (size + 7)) as Hr.
  pose proof (Z.div_mod (u32 (size + 7)) 8). pose proof (Z.mod_pos_bound (u32 (size + 7)) 8).
  split; [lia|]. rewrite Z.mul_comm. apply Z.mod_mul. lia.
Qed.

Lemma round_up_bounds size : size ≤ round_up size 8 < size + 8.
Proof.
  unfold round_up.
  pose proof (Z.div_mod (size + 8 - 1) 8). pose proof (Z.mod_pos_bound (size + 8 - 1) 8).
  lia.
Qed.

Lemma u64_mod_8 z : u64 z mod 8 = z mod 8.
Proof.
  unfold u64. apply Z.mod_mod_divide. exists (2 ^ 61). reflexivity.
Qed.

Lemma land_7_mod_8 z : Z.land z 7 = z mod 8.
Proof. change 7 with (Z.ones 3). by rewrite Z.land_ones by lia. Qed.

(** An address moved by less than [2^64] comes back to itself only when it
    is not moved at all. *)
Lemma u64_add_fixed a d :
  u64 a = a → 0 ≤ d < 2 ^ 64 → u64 (a + d) = a → d = 0.
Proof.
  intros Ha Hd Hfix. pose proof (u64_range a) as Hr. rewrite Ha in Hr.
  unfold u64 in Hfix. destruct (decide (a + d < 2 ^ 64)) as [Hlt|Hge].
  - rewrite Z.mod_small in Hfix by lia. lia.
  - replace (a + d) with (a + d - 2 ^ 64 + 1 * 2 ^ 64) in Hfix by lia.
    rewrite Z.mod_add, Z.mod_small in Hfix by lia. lia.
Qed.

Lemma consumed_ge mem k : ∀ tag, 8 ≤ consumed mem k tag.
Proof.
  induction k as [|k IH]; intros tag; simpl; [lia|].
  pose proof (tag_size_range mem tag).
  pose proof (padded_range (tag_size mem tag)). specialize (IH (tag_next tag (tag_size mem tag))).
  lia.
Qed.

Lemma tag_at_consumed mem k : ∀ tag,
  0 ≤ tag → tag + consumed mem k tag - 8 < 2 ^ 64 →
  tag_at mem k tag = tag + consumed mem k tag - 8.
Proof.
  induction k as [|k IH]; intros tag Htag Htop; simpl in *; [lia|].
  pose proof (tag_size_range mem tag).
  pose proof (padded_range (tag_size mem tag)).
  pose proof (consumed_ge mem k (tag_next tag (tag_size mem tag))).
  assert (tag_next tag (tag_size mem tag) = tag + padded (tag_size mem tag)) as Hnext.
  { unfold tag_next. apply u64_small. lia. }
  rewrite IH; rewrite Hnext in *; lia.
Qed.

Lemma tag_at_S mem k tag :
  tag_at mem (S k) tag = tag_next (tag_at mem k tag) (tag_size mem (tag_at mem k tag)).
Proof.
  revert tag. induction k as [|k IH]; intros tag; [done|].
  change (tag_at mem (S (S k)) tag)
    with (tag_at mem (S k) (tag_next tag (tag_size mem tag))).
  by rewrite IH.
Qed.

(** *** Tag bodies *)

Lemma trace_pair {A} t (r : outcome A) : trace (t, r) = t.
Proof. reflexivity. Qed.

Lemma result_pair {A} t (r : outcome A) : result (t, r) = r.
Proof. reflexivity. Qed.

Lemma tag_switch_other mem fuel tag type :
  type ≠ MULTIBOOT_TAG_TYPE_MMAP → result (tag_switch mem fuel tag type) = Done tt.
Proof. intros Hty. unfold tag_switch. by repeat case_decide. Qed.

Lemma tag_switch_mmap mem fuel tag :
  tag_switch mem fuel tag MULTIBOOT_TAG_TYPE_MMAP
  = bind (printf "mmap\n" []) (λ _, mmap_loop mem fuel tag (u64 (tag + off_entries))).
Proof. reflexivity. Qed.

Lemma tag_body_eq mem fuel tag :
  tag_body mem fuel tag
  = bind ([Fetch (u64 (tag + off_type)) 4; Fetch (u64 (tag + off_size)) 4;
           header_line mem tag; Fetch (u64 (tag + off_type)) 4], Done tt)
      (λ _, tag_switch mem fuel tag (tag_type mem tag)).
Proof.
  unfold tag_body, printf, emit. rewrite !load32_eq, !bind_done. reflexivity.
Qed.

Lemma tag_body_result mem fuel tag :
  result (tag_body mem fuel tag) = result (tag_switch mem fuel tag (tag_type mem tag)).
Proof. by rewrite tag_body_eq, bind_done. Qed.

(** The body of a tag that ends within [bound] rounds, given more fuel. *)
Lemma tag_body_done mem fuel bound tag :
  0 ≤ tag → tag_ends_within mem bound tag → (bound < fuel)%nat →
  result (tag_body mem fuel tag) = Done tt.
Proof.
  intros Htag Hok Hfuel. rewrite tag_body_result.
  destruct (decide (tag_type mem tag = MULTIBOOT_TAG_TYPE_MMAP)) as [Hty|Hty].
  - rewrite Hty, tag_switch_mmap. unfold printf, emit. rewrite bind_done.
    destruct (Hok Hty) as (Hstride & Htop & Hcount).
    apply mmap_loop_positive_stride; try done. unfold mmap_count in Hcount. lia.
  - by apply tag_switch_other.
Qed.

(** *** Header lines *)

Lemma mmap_loop_no_header mem fuel : ∀ tag mmap,
  List.filter is_header (trace (mmap_loop mem fuel tag mmap)) = [].
Proof.
  induction fuel as [|fuel IH]; intros tag mmap; [done|].
  rewrite mmap_loop_S, load32_eq, bind_done. case_decide; [|done].
  rewrite mmap_print_eq, bind_done, load32_eq, bind_done.
  rewrite !trace_pair.
  rewrite !List.filter_app, IH. reflexivity.
Qed.

Lemma tag_switch_no_header mem fuel tag type :
  List.filter is_header (trace (tag_switch mem fuel tag type)) = [].
Proof.
  unfold tag_switch. repeat case_decide; try done.
  unfold printf, emit. rewrite bind_done. rewrite !trace_pair.
  rewrite List.filter_app, mmap_loop_no_header. reflexivity.
Qed.

Lemma tag_body_header mem fuel tag :
  List.filter is_header (trace (tag_body mem fuel tag)) = [header_line mem tag].
Proof.
  rewrite tag_body_eq, bind_done. rewrite !trace_pair.
  rewrite List.filter_app, tag_switch_no_header. reflexivity.
Qed.

(** One round of the outer loop whose body ends well: the trace. *)
Lemma tag_loop_step_trace mem fuel tag :
  tag_type mem tag ≠ MULTIBOOT_TAG_TYPE_END →
  result (tag_body mem fuel tag) = Done tt →
  trace (tag_loop mem (S fuel) tag)
  = [Fetch (u64 (tag + off_type)) 4] ++ trace (tag_body mem fuel tag)
    ++ [Fetch (u64 (tag + off_size)) 4]
    ++ trace (tag_loop mem fuel (tag_next tag (tag_size mem tag))).
Proof.
  intros Hty Hbody. rewrite tag_loop_S, load32_eq, bind_done.
  fold (tag_type mem tag). rewrite decide_True by done.
  rewrite !trace_pair. f_equal.
  rewrite (trace_bind_done _ _ tt) by done. f_equal.
  by rewrite load32_eq, bind_done.
Qed.

(** A stream of [k] tags that end, followed by an end tag, is walked to
    the end tag, one header line per tag. *)
Lemma tag_loop_walk mem bound k : ∀ tag fuel,
  u64 tag = tag →
  (∀ j, (j < k)%nat →
     tag_type mem (tag_at mem j tag) ≠ MULTIBOOT_TAG_TYPE_END
     ∧ tag_ends_within mem bound (tag_at mem j tag)) →
  tag_type mem (tag_at mem k tag) = MULTIBOOT_TAG_TYPE_END →
  (k + bound + 1 < fuel)%nat →
  result (tag_loop mem fuel tag) = Done (tag_at mem k tag)
  ∧ List.filter is_header (trace (tag_loop mem fuel tag)) = header_lines mem k tag.
Proof.
  induction k as [|k IH]; intros tag fuel Htag Hok Hend Hfuel.
  - destruct fuel as [|fuel]; [lia|]. by rewrite tag_loop_end.
  - destruct fuel as [|fuel]; [lia|].
    destruct (Hok 0%nat) as [Hty Hbound]; [lia|]. simpl in Hty, Hbound.
    assert (result (tag_body mem fuel tag) = Done tt) as Hbody.
    { apply (tag_body_done mem fuel bound); [|done|lia].
      pose proof (u64_range tag). rewrite Htag in *. lia. }
    rewrite (tag_loop_step mem fuel tag Hty Hbody).
    rewrite (tag_loop_step_trace mem fuel tag Hty Hbody).
    destruct (IH (tag_next tag (tag_size mem tag)) fuel) as [Hres Hhead];
      [apply u64_idemp | | done | lia |].
    { intros j Hj. apply (Hok (S j)). lia. }
    split; [done|].
    rewrite !List.filter_app, tag_body_header, Hhead. reflexivity.
Qed.

(** The run as a whole, when the walk comes to an end at [e]. *)
Lemma check_multiboot2_done mem fuel addr e :
  Z.land addr 7 = 0 →
  result (tag_loop mem fuel (u64 (addr + 8))) = Done e →
  result (check_multiboot2 mem fuel MULTIBOOT2_BOOTLOADER_MAGIC addr) = Done tt
  ∧ trace (check_multiboot2 mem fuel MULTIBOOT2_BOOTLOADER_MAGIC addr)
    = [CGA_clear_ev; Fetch (u64 addr) 4;
       Printf "Announced mbi size 0x%x\n" [total_size mem addr]]
      ++ trace (tag_loop mem fuel (u64 (addr + 8)))
      ++ [Fetch (u64 (e + off_size)) 4;
          Printf "Total mbi size 0x%x\n" [total_reported mem addr e]].
Proof.
  intros Hal Hloop. rewrite check_multiboot2_checked by done. rewrite bind_done.
  rewrite !trace_pair, !result_pair.
  rewrite (result_bind_done _ _ e), (trace_bind_done _ _ e) by done.
  unfold printf, emit. rewrite load32_eq, bind_done. done.
Qed.

(** *** Lines of entries laid out at any stride *)

Lemma mmap_lines_fields_at mem stride entries : ∀ mmap,
  Forall entry_wf entries →
  entries_at mem stride mmap entries →
  line_fields <$> mmap_lines mem stride (length entries) mmap
  = Some ∘ entry_fields <$> entries.
Proof.
  induction entries as [|e entries IH]; intros mmap Hwf Hat; [done|].
  apply Forall_cons in Hwf as [He Hwf].
  change (mmap_lines mem stride (length (e :: entries)) mmap)
    with (mmap_line mem mmap :: mmap_lines mem stride (length entries) (mmap + stride)).
  rewrite !fmap_cons. f_equal.
  - apply (mmap_line_fields mem mmap e []); [done|].
    rewrite app_nil_r. specialize (Hat 0%nat e eq_refl).
    by rewrite Z.mul_0_l, Z.add_0_r in Hat.
  - apply IH; [done|]. intros i e' Hi. specialize (Hat (S i) e' Hi).
    replace (mmap + stride + Z.of_nat i * stride)
      with (mmap + Z.of_nat (S i) * stride) by lia.
    done.
Qed.

Lemma fetched_app t1 t2 : fetched (t1 ++ t2) = fetched t1 ++ fetched t2.
Proof. unfold fetched. apply omap_app. Qed.

(** *** The ranges the entry loop reads *)

Lemma spans_app t1 t2 : spans (t1 ++ t2) = spans t1 ++ spans t2.
Proof. unfold spans. apply omap_app. Qed.

Lemma mmap_loop_below_trace mem fuel tag mmap :
  mmap < u64 (tag + tag_size mem tag) →
  trace (mmap_loop mem (S fuel) tag mmap)
  = [Fetch (u64 (tag + off_size)) 4] ++ trace (mmap_print mem mmap)
    ++ [Fetch (u64 (tag + off_entry_size)) 4]
    ++ trace (mmap_loop mem fuel tag (u64 (mmap + tag_entry_size mem tag))).
Proof.
  intros Hlt. rewrite mmap_loop_S, load32_eq, bind_done.
  fold (tag_size mem tag). rewrite decide_True by done.
  rewrite mmap_print_eq, bind_done, load32_eq, bind_done.
  fold (tag_entry_size mem tag). by rewrite !trace_pair.
Qed.

(** The reads of [k] rounds over entries that fit below [tag + size]. *)
Lemma mmap_loop_spans mem tag (k : nat) : ∀ mmap fuel,
  (k < fuel)%nat →
  0 ≤ tag → tag + off_entries ≤ mmap →
  tag + off_entries ≤ tag + tag_size mem tag < 2 ^ 64 →
  mmap + Z.of_nat k * tag_entry_size mem tag < 2 ^ 64 →
  (∀ i, 0 ≤ i < Z.of_nat k →
     mmap + i * tag_entry_size mem tag + 20 ≤ tag + tag_size mem tag) →
  tag + tag_size mem tag ≤ mmap + Z.of_nat k * tag_entry_size mem tag →
  Forall (λ span : Z * Z, tag ≤ span.1 ∧ span.2 ≤ tag + tag_size mem tag)
    (spans (trace (mmap_loop mem fuel tag mmap))).
Proof.
  pose proof (tag_entry_size_range mem tag) as Hes. unfold off_entries.
  induction k as [|k IH]; intros mmap fuel Hfuel Htag Hm Hsize Htop Hfit Hstop.
  - destruct fuel as [|fuel]; [lia|].
    rewrite mmap_loop_at_end by (rewrite u64_small by lia; lia).
    rewrite trace_pair. unfold off_size. rewrite u64_small by lia.
    repeat constructor; simpl; lia.
  - destruct fuel as [|fuel]; [lia|].
    pose proof (Hfit 0 ltac:(lia)) as Hfirst.
    rewrite mmap_loop_below_trace by (rewrite u64_small by lia; lia).
    rewrite mmap_print_eq, trace_pair, !spans_app.
    unfold off_size, off_entry_size, off_addr, off_len, off_mmap_type.
    rewrite !(u64_small (tag + _)), !(u64_small (mmap + _)) by nia.
    repeat (apply Forall_app; split).
    + repeat constructor; simpl; lia.
    + repeat constructor; simpl; lia.
    + repeat constructor; simpl; lia.
    + apply (IH (mmap + tag_entry_size mem tag) fuel); try lia.
      * intros i Hi. specialize (Hfit (i + 1)). lia.
Qed.

End WalkFacts.

(** ** Further properties of the boot information parser *)

Module WalkSpec.
Import Multiboot2 Samples Walks MachineFacts RunFacts Multiboot2Facts WalkFacts.

(** X1: the padded extent of a tag is a multiple of 8 below [2^32], padding
    a padded extent changes nothing, and for sizes up to [2^32 - 8] the
    padding adds at most 7 bytes and never cuts the tag short. *)
Theorem padded_bounds size :
  0 ≤ size < 2 ^ 32 →
  0 ≤ padded size < 2 ^ 32
  ∧ padded size mod 8 = 0
  ∧ padded (padded size) = padded size
  ∧ (size ≤ 2 ^ 32 - 8 → size ≤ padded size < size + 8).
Proof.
  intros Hs. destruct (padded_range size) as [Hr Hm]; [lia|].
  split; [done|]. split; [done|]. split.
  - assert (padded size ≤ 2 ^ 32 - 8) as Hle.
    { pose proof (Z.div_mod (padded size) 8). lia. }
    rewrite (padded_round_up (padded size)) by lia.
    pose proof (proj2 (proj2 (round_up_least (padded size))) (padded size)) as Hleast.
    pose proof (round_up_bounds (padded size)). lia.
  - intros Hle. rewrite padded_round_up by lia. apply round_up_bounds.
Qed.

Lemma padded_bounds_witness :
  0 ≤ 9 < 2 ^ 32 ∧ padded 9 mod 8 = 0 ∧ 9 ≤ padded 9 < 9 + 8.
Proof.
  assert (0 ≤ 9 < 2 ^ 32) as Hr by lia.
  split; [exact Hr|].
  destruct (padded_bounds 9 Hr) as (_ & Hm & _ & Hb).
  split; [exact Hm | apply Hb; lia].
Defined.

(** X2: the cursor comes back to the same tag exactly when the size field
    is 0 or one of the seven largest values. *)
Theorem cursor_stalls_iff tag size :
  u64 tag = tag → 0 ≤ size < 2 ^ 32 →
  tag_next tag size = tag ↔ size = 0 ∨ 2 ^ 32 - 7 ≤ size.
Proof.
  intros Htag Hs. destruct (padded_range size) as [Hr _]; [lia|]. split.
  - intros Hfix. apply u64_add_fixed in Hfix; [|done|lia].
    destruct (decide (size ≤ 2 ^ 32 - 8)) as [Hle|]; [|lia].
    rewrite padded_round_up in Hfix by lia.
    pose proof (round_up_bounds size). lia.
  - intros Hstall. unfold tag_next.
    assert (padded size = 0) as ->.
    { destruct Hstall as [->|Hbig]; [done | apply padded_wraps; lia]. }
    by rewrite Z.add_0_r.
Qed.

Lemma cursor_stalls_iff_witness :
  u64 (base + 8) = base + 8
  ∧ (tag_next (base + 8) 0xfffffffa = base + 8 ↔ 0xfffffffa = 0 ∨ 2 ^ 32 - 7 ≤ 0xfffffffa).
Proof.
  split; [reflexivity|].
  apply (cursor_stalls_iff (base + 8) 0xfffffffa); [reflexivity | lia].
Defined.

(** X3: when the walk comes to a tag that is not the end tag and whose size
    field is one of the seven largest values, the run never ends. *)
Theorem oversized_tag_never_terminates mem addr k :
  Z.land addr 7 = 0 →
  let first := u64 (addr + 8) in
  (∀ j, (j ≤ k)%nat → tag_type mem (tag_at mem j first) ≠ MULTIBOOT_TAG_TYPE_END) →
  2 ^ 32 - 7 ≤ tag_size mem (tag_at mem k first) →
  ∀ fuel, result (check_multiboot2 mem fuel MULTIBOOT2_BOOTLOADER_MAGIC addr) = OutOfFuel.
Proof.
  intros Hal first Hty Hbig fuel.
  apply check_multiboot2_out_of_fuel; [done|].
  apply (tag_loop_reaches_stuck mem k first); [done|].
  apply cursor_stalls_iff; [apply tag_at_u64, u64_idemp | apply tag_size_range | by right].
Qed.

Lemma oversized_tag_never_terminates_witness :
  2 ^ 32 - 7 ≤ tag_size wrap_size_mbi (u64 (base + 8))
  ∧ ∀ fuel,
      result (check_multiboot2 wrap_size_mbi fuel MULTIBOOT2_BOOTLOADER_MAGIC base)
      = OutOfFuel.
Proof.
  split; [by vm_compute|].
  apply (oversized_tag_never_terminates wrap_size_mbi base 0).
  - reflexivity.
  - intros j Hj. assert (j = 0%nat) as -> by lia. by vm_compute.
  - by vm_compute.
Defined.

(** X4: from an aligned address on, every tag the walk visits lies at a
    multiple of 8, whatever the memory holds. *)
Theorem tags_stay_aligned mem addr k :
  Z.land addr 7 = 0 → Z.land (tag_at mem k (u64 (addr + 8))) 7 = 0.
Proof.
  rewrite !land_7_mod_8. intros Hal.
  assert (u64 (addr + 8) mod 8 = 0) as Hfirst.
  { rewrite u64_mod_8. replace (addr + 8) with (addr + 1 * 8) by lia.
    by rewrite Z.mod_add by lia. }
  revert Hfirst. generalize (u64 (addr + 8)). clear Hal.
  induction k as [|k IH]; intros tag Htag; [done|].
  simpl. apply IH. unfold tag_next. rewrite u64_mod_8.
  destruct (padded_range (tag_size mem tag)) as [_ Hp]; [apply tag_size_range|].
  rewrite Z.add_mod by lia. by rewrite Htag, Hp.
Qed.

Lemma tags_stay_aligned_witness :
  Z.land base 7 = 0 ∧ Z.land (tag_at good_mbi 2 (u64 (base + 8))) 7 = 0.
Proof.
  split; [reflexivity|]. apply (tags_stay_aligned good_mbi base 2). reflexivity.
Defined.

(** X5: as long as the addresses do not wrap around, the [k]-th tag lies
    [consumed] bytes behind the start of the structure: the header and the
    padded extents of the tags before it. *)
Theorem cursor_is_consumed mem addr k :
  let first := u64 (addr + 8) in
  0 ≤ addr → addr + consumed mem k first < 2 ^ 64 →
  tag_at mem k first = addr + consumed mem k first.
Proof.
  intros first Haddr Htop. pose proof (consumed_ge mem k first).
  assert (first = addr + 8) as Hfirst by (apply u64_small; lia).
  rewrite tag_at_consumed; rewrite Hfirst in *; lia.
Qed.

Lemma cursor_is_consumed_witness :
  consumed good_mbi 2 (u64 (base + 8)) = 88
  ∧ tag_at good_mbi 2 (u64 (base + 8)) = base + consumed good_mbi 2 (u64 (base + 8)).
Proof.
  split; [by vm_compute|].
  apply (cursor_is_consumed good_mbi base 2); by vm_compute.
Defined.

(** X6: when the walk ends, it has ended at the first end tag: every tag
    before the one it stopped at was not an end tag. *)
Theorem walk_ends_at_first_end mem fuel : ∀ tag e,
  result (tag_loop mem fuel tag) = Done e →
  ∃ k, (k < fuel)%nat
       ∧ e = tag_at mem k tag
       ∧ tag_type mem e = MULTIBOOT_TAG_TYPE_END
       ∧ ∀ j, (j < k)%nat → tag_type mem (tag_at mem j tag) ≠ MULTIBOOT_TAG_TYPE_END.
Proof.
  induction fuel as [|fuel IH]; intros tag e Hdone; [done|].
  destruct (decide (tag_type mem tag = MULTIBOOT_TAG_TYPE_END)) as [Hend|Hty].
  - rewrite tag_loop_end in Hdone by done. injection Hdone as <-.
    exists 0%nat. split_and!; [lia | done | done | lia].
  - destruct (tag_loop_round mem fuel tag Hty) as [Ho|Hs].
    + rewrite Ho in Hdone. done.
    + rewrite Hs in Hdone. destruct (IH _ _ Hdone) as (k & Hk & He & Hend & Hbefore).
      exists (S k). split_and!; [lia | done | done |].
      intros [|j] Hj; [done|]. apply Hbefore. lia.
Qed.

Lemma walk_ends_at_first_end_witness :
  ∃ k, (k < 5)%nat
       ∧ base + 88 = tag_at good_mbi k (base + 8)
       ∧ tag_type good_mbi (base + 88) = MULTIBOOT_TAG_TYPE_END
       ∧ ∀ j, (j < k)%nat →
           tag_type good_mbi (tag_at good_mbi j (base + 8)) ≠ MULTIBOOT_TAG_TYPE_END.
Proof.
  apply (walk_ends_at_first_end good_mbi 5 (base + 8) (base + 88)). by vm_compute.
Defined.

(** X7: a stream of [k] tags that are not end tags, whose memory maps have
    a positive stride, lie below the top of the address space and have at
    most [bound] entries, followed by an end tag, is walked to that end
    tag: the run completes with any fuel above [k + bound + 1]. *)
Theorem well_formed_stream_terminates mem addr k bound fuel :
  Z.land addr 7 = 0 →
  let first := u64 (addr + 8) in
  (∀ j, (j < k)%nat →
     tag_type mem (tag_at mem j first) ≠ MULTIBOOT_TAG_TYPE_END
     ∧ tag_ends_within mem bound (tag_at mem j first)) →
  tag_type mem (tag_at mem k first) = MULTIBOOT_TAG_TYPE_END →
  (k + bound + 1 < fuel)%nat →
  result (tag_loop mem fuel first) = Done (tag_at mem k first)
  ∧ result (check_multiboot2 mem fuel MULTIBOOT2_BOOTLOADER_MAGIC addr) = Done tt.
Proof.
  intros Hal first Hok Hend Hfuel.
  destruct (tag_loop_walk mem bound k first fuel) as [Hres _];
    [apply u64_idemp | done | done | done |].
  split; [done|]. by apply (check_multiboot2_done mem fuel addr (tag_at mem k first)).
Qed.

(** The two tags of [good_mbi] end within two rounds. *)
Lemma good_mbi_tags_end j :
  (j < 2)%nat →
  tag_type good_mbi (tag_at good_mbi j (u64 (base + 8))) ≠ MULTIBOOT_TAG_TYPE_END
  ∧ tag_ends_within good_mbi 2 (tag_at good_mbi j (u64 (base + 8))).
Proof.
  intros Hj. assert (j = 0 ∨ j = 1)%nat as [-> | ->] by lia.
  - split; [by vm_compute|]. intros Hty. by vm_compute in Hty.
  - split; [by vm_compute|]. intros _. split_and!; [by vm_compute | by vm_compute |].
    vm_compute. lia.
Qed.

Lemma well_formed_stream_terminates_witness :
  result (tag_loop good_mbi 6 (u64 (base + 8))) = Done (tag_at good_mbi 2 (u64 (base + 8)))
  ∧ result (check_multiboot2 good_mbi 6 MULTIBOOT2_BOOTLOADER_MAGIC base) = Done tt.
Proof.
  apply (well_formed_stream_terminates good_mbi base 2 2 6).
  - reflexivity.
  - exact good_mbi_tags_end.
  - by vm_compute.
  - lia.
Defined.

(** X8: for such a stream the run prints exactly one header line per tag,
    in the order of the stream, with the type and the size of the tag; the
    end tag gets none. *)
Theorem one_header_per_tag mem addr k bound fuel :
  Z.land addr 7 = 0 →
  let first := u64 (addr + 8) in
  (∀ j, (j < k)%nat →
     tag_type mem (tag_at mem j first) ≠ MULTIBOOT_TAG_TYPE_END
     ∧ tag_ends_within mem bound (tag_at mem j first)) →
  tag_type mem (tag_at mem k first) = MULTIBOOT_TAG_TYPE_END →
  (k + bound + 1 < fuel)%nat →
  let run := check_multiboot2 mem fuel MULTIBOOT2_BOOTLOADER_MAGIC addr in
  List.filter is_header (trace run) = header_lines mem k first
  ∧ length (List.filter is_header (trace run)) = k.
Proof.
  intros Hal first Hok Hend Hfuel run.
  destruct (tag_loop_walk mem bound k first fuel) as [Hres Hhead];
    [apply u64_idemp | done | done | done |].
  destruct (check_multiboot2_done mem fuel addr _ Hal Hres) as [_ Htrace].
  assert (List.filter is_header (trace run) = header_lines mem k first) as Hlines.
  { unfold run. rewrite Htrace, !List.filter_app. fold first. rewrite Hhead.
    simpl. by rewrite app_nil_r. }
  split; [done|]. rewrite Hlines. clear. generalize first.
  induction k as [|k IH]; intros tag; simpl; [done | by rewrite IH].
Qed.

Lemma one_header_per_tag_witness :
  List.filter is_header
    (trace (check_multiboot2 good_mbi 6 MULTIBOOT2_BOOTLOADER_MAGIC base))
  = [ Printf "Tag 0x%x, Size 0x%x\n" [1; 10]; Printf "Tag 0x%x, Size 0x%x\n" [6; 64] ].
Proof.
  destruct (one_header_per_tag good_mbi base 2 2 6) as [Hlines _].
  - reflexivity.
  - exact good_mbi_tags_end.
  - by vm_compute.
  - lia.
  - rewrite Hlines. by vm_compute.
Defined.

(** X9: a memory map tag without payload (a size of at most 16) is
    reported as the line "mmap" alone, whatever its stride is, a stride of 0
    included: the entry loop reads the size once and leaves. *)
Theorem mmap_without_payload mem tag fuel :
  0 ≤ tag → tag + off_entries < 2 ^ 64 →
  tag_size mem tag ≤ off_entries →
  tag_switch mem (S fuel) tag MULTIBOOT_TAG_TYPE_MMAP
  = ([Printf "mmap\n" []; Fetch (tag + off_size) 4], Done tt).
Proof.
  unfold off_entries, off_size. intros Htag Htop Hsize.
  pose proof (tag_size_range mem tag).
  rewrite tag_switch_mmap. unfold printf, emit, off_entries. rewrite bind_done.
  rewrite mmap_loop_at_end.
  - unfold off_size. by rewrite (u64_small (tag + 4)) by lia.
  - rewrite !u64_small by lia. lia.
Qed.

Lemma mmap_without_payload_witness :
  tag_size empty_mmap_mbi (base + 8) ≤ off_entries
  ∧ tag_entry_size empty_mmap_mbi (base + 8) = 0
  ∧ result (tag_switch empty_mmap_mbi 1 (base + 8) MULTIBOOT_TAG_TYPE_MMAP) = Done tt.
Proof.
  assert (tag_size empty_mmap_mbi (base + 8) ≤ off_entries) as Hs by (by vm_compute).
  split; [exact Hs|]. split; [by vm_compute|].
  rewrite (mmap_without_payload empty_mmap_mbi (base + 8) 0
             ltac:(by vm_compute) ltac:(by vm_compute) Hs).
  reflexivity.
Defined.

(** X10: a memory map tag with a stride of 0 and a payload makes the entry
    loop print the first entry over and over: with any fuel the loop runs
    out of it, having printed that entry once per unit of fuel. *)
Theorem zero_stride_repeats mem tag fuel :
  0 ≤ tag → tag + tag_size mem tag < 2 ^ 64 →
  tag_entry_size mem tag = 0 →
  off_entries < tag_size mem tag →
  let run := mmap_loop mem fuel tag (u64 (tag + off_entries)) in
  result run = OutOfFuel
  ∧ printed (trace run) = replicate fuel (mmap_line mem (tag + off_entries)).
Proof.
  unfold off_entries. intros Htag Htop Hstride Hsize.
  rewrite (u64_small (tag + 16)) by lia.
  induction fuel as [|fuel IH]; [done|].
  assert (tag + 16 < u64 (tag + tag_size mem tag)) as Hlt
    by (rewrite u64_small by lia; lia).
  destruct (mmap_loop_below mem fuel tag (tag + 16) Hlt) as [Hres Hlines].
  rewrite Hstride, Z.add_0_r, (u64_small (tag + 16)) in Hres, Hlines by lia.
  cbv zeta in IH |- *. rewrite Hres, Hlines.
  destruct IH as [-> ->]. done.
Qed.

Lemma zero_stride_repeats_witness :
  tag_entry_size zero_stride_mbi (base + 8) = 0
  ∧ length (printed (trace
      (mmap_loop zero_stride_mbi 7 (base + 8) (u64 (base + 8 + off_entries))))) = 7%nat.
Proof.
  assert (tag_entry_size zero_stride_mbi (base + 8) = 0) as Hz by (by vm_compute).
  split; [exact Hz|].
  destruct (zero_stride_repeats zero_stride_mbi (base + 8) 7
              ltac:(by vm_compute) ltac:(by vm_compute) Hz ltac:(by vm_compute))
    as [_ ->].
  apply length_replicate.
Defined.



(** X12: the magic number is checked first.  A wrong magic number is what
    the run reports, with its low 32 bits, even when the address is
    misaligned as well; a misaligned address is reported, in full, only
    when the magic number is right. *)
Theorem magic_checked_first mem fuel magic addr :
  (magic ≠ MULTIBOOT2_BOOTLOADER_MAGIC →
   check_multiboot2 mem fuel magic addr
   = ([CGA_clear_ev; Panicf "Invalid magic number: 0x%x\n" [u32 magic]], Halted))
  ∧ (magic = MULTIBOOT2_BOOTLOADER_MAGIC → Z.land addr 7 ≠ 0 →
     check_multiboot2 mem fuel magic addr
     = ([CGA_clear_ev; Panicf "Unaligned mbi: 0x%x\n" [addr]], Halted)).
Proof.
  split.
  - intros Hm. unfold check_multiboot2, CGA_clear, emit. rewrite bind_done.
    by rewrite decide_True by done.
  - intros -> Ha. unfold check_multiboot2, CGA_clear, emit. rewrite bind_done.
    rewrite decide_False by (intros Hne; by apply Hne).
    change (ret tt) with (([] : list event), Done tt). rewrite bind_done.
    by rewrite decide_True by done.
Qed.

Lemma magic_checked_first_witness :
  check_multiboot2 good_mbi 5 (MULTIBOOT2_BOOTLOADER_MAGIC + 2 ^ 32) (base + 1)
  = ([CGA_clear_ev;
      Panicf "Invalid magic number: 0x%x\n" [MULTIBOOT2_BOOTLOADER_MAGIC]], Halted)
  ∧ check_multiboot2 good_mbi 5 MULTIBOOT2_BOOTLOADER_MAGIC (base + 1)
    = ([CGA_clear_ev; Panicf "Unaligned mbi: 0x%x\n" [base + 1]], Halted).
Proof.
  split.
  - apply (magic_checked_first good_mbi 5 (MULTIBOOT2_BOOTLOADER_MAGIC + 2 ^ 32) (base + 1)).
    by vm_compute.
  - apply (magic_checked_first good_mbi 5 MULTIBOOT2_BOOTLOADER_MAGIC (base + 1));
      by vm_compute.
Defined.

(** X13: when the walk ends at the tag [e], the last line printed is
    "Total mbi size" with [(unsigned) tag - addr], [tag] being the address
    behind [e].  For a structure that ends below 4 GiB this is the number
    of bytes from [addr] to the end of [e]'s padded extent. *)
Theorem total_size_report mem fuel addr e :
  Z.land addr 7 = 0 →
  result (tag_loop mem fuel (u64 (addr + 8))) = Done e →
  let run := check_multiboot2 mem fuel MULTIBOOT2_BOOTLOADER_MAGIC addr in
  List.last (printed (trace run)) CGA_clear_ev
  = Printf "Total mbi size 0x%x\n" [total_reported mem addr e]
  ∧ (0 ≤ addr ≤ e → e + padded (tag_size mem e) < 2 ^ 32 →
     total_reported mem addr e = e + padded (tag_size mem e) - addr).
Proof.
  intros Hal Hloop run. split.
  - destruct (check_multiboot2_done mem fuel addr e Hal Hloop) as [_ Htrace].
    unfold run. rewrite Htrace, !printed_app.
    change (printed [Fetch (u64 (e + off_size)) 4;
                     Printf "Total mbi size 0x%x\n" [total_reported mem addr e]])
      with [Printf "Total mbi size 0x%x\n" [total_reported mem addr e]].
    rewrite app_assoc. apply List.last_last.
  - intros Haddr Htop.
    destruct (padded_range (tag_size mem e)) as [Hp _]; [apply tag_size_range|].
    unfold total_reported, tag_next.
    rewrite (u64_small (e + _)), u32_small, u64_small by lia. done.
Qed.

Lemma total_size_report_witness :
  List.last (printed (trace (check_multiboot2 good_mbi 5 MULTIBOOT2_BOOTLOADER_MAGIC base)))
    CGA_clear_ev
  = Printf "Total mbi size 0x%x\n" [total_reported good_mbi base (base + 88)]
  ∧ total_reported good_mbi base (base + 88) = 96.
Proof.
  destruct (total_size_report good_mbi 5 base (base + 88)
              ltac:(reflexivity) ltac:(by vm_compute)) as [Hlast Htotal].
  split; [exact Hlast|].
  rewrite Htotal; by vm_compute.
Defined.



(** X15: the stride of a memory map need not be 24.  For N entries laid
    out one every [entry_size] bytes from the start of the payload, in a tag
    of size 16 + N * [entry_size], the entry loop prints exactly N lines
    that carry the address, length and type of the entries, in order. *)
Theorem mmap_decoding_any_stride mem tag (entries : list mmap_entry) fuel :
  let n := length entries in
  let stride := tag_entry_size mem tag in
  0 ≤ tag → 0 < stride →
  tag + off_entries + stride * Z.of_nat n < 2 ^ 64 →
  tag_size mem tag = off_entries + stride * Z.of_nat n →
  Forall entry_wf entries →
  entries_at mem stride (tag + off_entries) entries →
  (n < fuel)%nat →
  let run := mmap_loop mem fuel tag (u64 (tag + off_entries)) in
  result run = Done tt
  ∧ length (printed (trace run)) = n
  ∧ line_fields <$> printed (trace run) = Some ∘ entry_fields <$> entries.
Proof.
  intros n stride Htag Hstride Htop Hsize Hwf Hat Hfuel run.
  unfold off_entries in *. unfold run. rewrite (u64_small (tag + 16)) by nia.
  destruct (mmap_loop_run mem tag n (tag + 16) fuel) as [Hres Hlines];
    fold stride; rewrite ?Hsize; first [lia | nia | intros i Hi; nia | idtac].
  rewrite Hres, Hlines. split; [done|]. split; [apply mmap_lines_length|].
  by apply mmap_lines_fields_at.
Qed.

Lemma wide_entries_at :
  entries_at wide_mbi 32 (base + 8 + off_entries) [entry1; entry2].
Proof.
  intros [|[|i]] e He; simpl in He; [| |done];
    injection He as <-; apply holds_check; by vm_compute.
Qed.

Lemma mmap_decoding_any_stride_witness :
  tag_entry_size wide_mbi (base + 8) = 32
  ∧ line_fields <$> printed (trace
      (mmap_loop wide_mbi 3 (base + 8) (u64 (base + 8 + off_entries))))
    = Some ∘ entry_fields <$> [entry1; entry2].
Proof.
  split; [by vm_compute|].
  apply (mmap_decoding_any_stride wide_mbi (base + 8) [entry1; entry2] 3).
  - by vm_compute.
  - by vm_compute.
  - by vm_compute.
  - by vm_compute.
  - repeat constructor; by vm_compute.
  - exact wide_entries_at.
  - simpl. lia.
Defined.

(** X16: for a memory map whose payload is a whole number of strides, with
    a stride of at least 20 bytes, the entry loop reads nothing outside the
    tag: every read lies between the start of the tag and its size. *)
Theorem mmap_reads_inside_tag mem tag fuel (n : nat) :
  let size := tag_size mem tag in
  let stride := tag_entry_size mem tag in
  0 ≤ tag → tag + size < 2 ^ 64 →
  20 ≤ stride → size = off_entries + Z.of_nat n * stride →
  (n < fuel)%nat →
  Forall (λ span : Z * Z, tag ≤ span.1 ∧ span.2 ≤ tag + size)
    (spans (trace (mmap_loop mem fuel tag (u64 (tag + off_entries))))).
Proof.
  intros size stride Htag Htop Hstride Hsize Hfuel.
  unfold off_entries in *. rewrite (u64_small (tag + 16)) by nia.
  apply (mmap_loop_spans mem tag n); fold size stride; unfold off_entries;
    first [lia | nia | intros i Hi; nia].
Qed.

Lemma mmap_reads_inside_tag_witness :
  tag_size good_mbi (base + 24) = 64
  ∧ Forall (λ span : Z * Z, base + 24 ≤ span.1 ∧ span.2 ≤ base + 24 + 64)
      (spans (trace (mmap_loop good_mbi 3 (base + 24) (u64 (base + 24 + off_entries))))).
Proof.
  split; [by vm_compute|].
  apply (mmap_reads_inside_tag good_mbi (base + 24) 3 2); by vm_compute.
Defined.


End WalkSpec.

(** ** Further properties of the exception registry *)

Module RegistrySpec.
Import Exception Registry RunFacts ExceptionFacts.

Lemma default_table_None v : v ∉ defined_vectors → default_table !! v = None.
Proof.
  intros Hv. apply not_elem_of_dom. rewrite default_table_dom.
  by rewrite elem_of_list_to_set.
Qed.

Lemma default_table_Some v : v ∈ defined_vectors → is_Some (default_table !! v).
Proof.
  intros Hv. apply elem_of_dom. rewrite default_table_dom.
  by rewrite elem_of_list_to_set.
Qed.

(** X17: [exception_defaults] leaves every vector alone that is not one of
    the 23 it defines: the handlers of the device interrupts from 32 on,
    and those of the exception vectors 9, 15, 22 to 27 and 31, stay as they
    were. *)
Theorem other_vectors_untouched (pb : gmap Z interrupt_handler) v :
  v ∉ defined_vectors →
  exception_defaults pb !! v = pb !! v
  ∧ unassigned_exceptions = [9; 15; 22; 23; 24; 25; 26; 27; 31].
Proof.
  intros Hv. split; [|by vm_compute].
  apply exception_defaults_lookup_other. by apply default_table_None.
Qed.

Lemma other_vectors_untouched_witness :
  (32 ∉ defined_vectors)
  ∧ exception_defaults (<[32 := new_interrupt_handler de_prologue None]> ∅) !! 32
    = Some (new_interrupt_handler de_prologue None).
Proof.
  assert (32 ∉ defined_vectors) as Hv.
  { apply (bool_decide_unpack _). by vm_compute. }
  split; [exact Hv|].
  destruct (other_vectors_untouched
              (<[32 := new_interrupt_handler de_prologue None]> ∅) 32 Hv) as [-> _].
  apply lookup_insert_eq.
Defined.

(** X18: how the defaults compose with a registration.  A handler
    registered before [exception_defaults] is lost when its vector is one
    of the defined ones, and kept otherwise; a handler registered after it
    is the one in force. *)
Theorem defaults_and_assign (pb : gmap Z interrupt_handler) v h :
  (v ∈ defined_vectors →
   exception_defaults (plugbox_assign v h pb) = exception_defaults pb)
  ∧ (v ∉ defined_vectors →
     exception_defaults (plugbox_assign v h pb)
     = plugbox_assign v h (exception_defaults pb))
  ∧ plugbox_assign v h (exception_defaults pb) !! v = Some h.
Proof.
  unfold plugbox_assign, plugbox_table. split_and!.
  - intros Hv. destruct (default_table_Some v Hv) as [d Hd].
    rewrite !exception_defaults_table. apply map_eq. intros w.
    rewrite !lookup_union. destruct (decide (w = v)) as [->|Hne].
    + rewrite Hd. by destruct (<[v:=h]> pb !! v), (pb !! v).
    + by rewrite lookup_insert_ne.
  - intros Hv. rewrite !exception_defaults_table.
    symmetry. apply insert_union_r. by apply default_table_None.
  - apply lookup_insert_eq.
Qed.

Lemma defaults_and_assign_witness :
  exception_defaults (plugbox_assign 14 (new_interrupt_handler de_prologue None) ∅)
  = exception_defaults (∅ : gmap Z interrupt_handler)
  ∧ exception_defaults (plugbox_assign 32 (new_interrupt_handler de_prologue None) ∅)
    = plugbox_assign 32 (new_interrupt_handler de_prologue None)
        (exception_defaults (∅ : gmap Z interrupt_handler)).
Proof.
  split.
  - apply (defaults_and_assign ∅ 14 (new_interrupt_handler de_prologue None)).
    apply (bool_decide_unpack _). by vm_compute.
  - apply (defaults_and_assign ∅ 32 (new_interrupt_handler de_prologue None)).
    apply (bool_decide_unpack _). by vm_compute.
Defined.

(** X19: the message tells the vector.  Each of the 23 default handlers
    emits a message that no other default handler emits: looking the
    message up among the handlers gives back the vector it was registered
    for. *)
Theorem message_tells_vector (pb : gmap Z interrupt_handler) :
  Forall (λ v, ∃ msg,
            emitted <$> invoke (exception_defaults pb) v = Some (Some msg)
            ∧ vector_of_message msg = Some v)
    defined_vectors.
Proof.
  each_vector ltac:(rewrite invoke_defaults by (vm_compute; by eexists);
                    eexists; split; [vm_compute; reflexivity | by vm_compute]).
Qed.

End RegistrySpec.
